(** * Key Vault secrets client and generated ARM clients: a shallow embedding

    The development follows the TypeScript sources:
    - [SecretClient] (keyvault-secrets [index.ts]): constructor, result
      shaping ([getSecretFromSecretBundle]) and the three paginated list
      operations;
    - [WorkloadsClient] and [PaloAltoNetworksCloudngfw]: constructors and the
      [CustomApiVersionPolicy] pipeline stage.

    JavaScript values are embedded as an inductive type, objects as finite
    maps from property names to values, strings as [string]. Async
    generators are embedded as explicit state machines driven by [next]. *)

From stdpp Require Import gmap strings list fin_maps pretty.
From Stdlib Require Import Ascii String ZArith Lia.

#[local] Set Warnings "-register-all".
#[local] Open Scope string_scope.
#[local] Open Scope list_scope.
#[local] Open Scope nat_scope.

(** ** JavaScript values and objects *)

Module Js.

(** The values that flow through the modelled code. [VDate] carries the
    epoch milliseconds of a [Date], [VFun] stands for a function or method
    reference (never called by the model), [VArr] is an array and [VObj] a
    plain object. *)
Inductive JsVal : Type :=
| VUndef
| VNull
| VBool (b : bool)
| VStr (s : string)
| VNum (n : Z)
| VDate (t : Z)
| VFun (name : string)
| VArr (items : list JsVal)
| VObj (o : gmap string JsVal).

Abbreviation Obj := (gmap string JsVal).

(** ToBoolean: [undefined], [null], [false], the empty string and [0] are
    falsy; dates, functions, arrays and objects (even empty ones) are
    truthy. *)
Definition truthy (v : JsVal) : bool :=
  match v with
  | VUndef | VNull => false
  | VBool b => b
  | VStr s => negb (String.eqb s "")
  | VNum n => negb (n =? 0)%Z
  | VDate _ | VFun _ | VArr _ | VObj _ => true
  end.

(** [v == null] *)
Definition nullish (v : JsVal) : bool :=
  match v with VUndef | VNull => true | _ => false end.

(** [o.k] on an object: a missing property reads as [undefined]. *)
Definition get (o : Obj) (k : string) : JsVal := default VUndef (o !! k).

(** [o.k !== undefined] *)
Definition defined (v : JsVal) : bool :=
  match v with VUndef => false | _ => true end.

Definition present (o : Obj) (k : string) : bool := defined (get o k).

(** Thrown values. *)
Inductive Exn : Type :=
| TypeError (msg : string)
| Error (msg : string)
| RestError (status : Z).

(** Decimal rendering of an array index, used for the keys of a spread
    string. *)
Definition index_key (i : nat) : string := pretty i.

Fixpoint spread_chars (i : nat) (s : string) : Obj :=
  match s with
  | EmptyString => ∅
  | String c r => <[index_key i := VStr (String c EmptyString)]> (spread_chars (S i) r)
  end.

Fixpoint spread_items (i : nat) (l : list JsVal) : Obj :=
  match l with
  | [] => ∅
  | x :: r => <[index_key i := x]> (spread_items (S i) r)
  end.

(** The own enumerable properties copied by [{...v}]: those of an object,
    the indexed elements of an array or characters of a string, nothing
    for the other values. *)
Definition spread (v : JsVal) : Obj :=
  match v with
  | VObj o => o
  | VArr l => spread_items 0 l
  | VStr s => spread_chars 0 s
  | _ => ∅
  end.

(** The value of [v.k] when the read does not throw. *)
Definition read (v : JsVal) (k : string) : JsVal :=
  match v with
  | VObj o => get o k
  | _ => VUndef
  end.

(** [v.k] on an arbitrary value: reading a property of [undefined] or
    [null] throws a [TypeError]; primitives have none of the properties
    read by the modelled code. *)
Definition get_prop (v : JsVal) (k : string) : Exn + JsVal :=
  match v with
  | VUndef => inl (TypeError ("Cannot read properties of undefined (reading '" +:+ k +:+ "')"))
  | VNull => inl (TypeError ("Cannot read properties of null (reading '" +:+ k +:+ "')"))
  | _ => inr (read v k)
  end.

(** [{...a, ...b}]: properties of [b] win. [∪] on maps is left-biased. *)
Definition assign (a b : Obj) : Obj := b ∪ a.

End Js.

(** ** Strings: the [String.prototype] methods used by the policies *)

Module JsString.

(** [s.split(sep)] for a one-character separator. The result is never
    empty: the empty string splits into one empty piece. *)
Fixpoint split (sep : ascii) (s : string) : list string :=
  match s with
  | EmptyString => [EmptyString]
  | String c r =>
      if Ascii.eqb c sep then EmptyString :: split sep r
      else match split sep r with
           | [] => [String c EmptyString]
           | h :: t => String c h :: t
           end
  end.

(** [l.join(sep)] *)
Fixpoint join (sep : string) (l : list string) : string :=
  match l with
  | [] => EmptyString
  | [x] => x
  | x :: r => x +:+ sep +:+ join sep r
  end.

(** [s.indexOf(pat) > -1] *)
Fixpoint includes (pat s : string) : bool :=
  String.prefix pat s ||
  match s with
  | EmptyString => false
  | String _ r => includes pat r
  end.

(** Whether character [c] occurs in [s]. *)
Fixpoint occurs (c : ascii) (s : string) : bool :=
  match s with
  | EmptyString => false
  | String d r => Ascii.eqb d c || occurs c r
  end.

(** Line terminators representable in [ascii]: LF and CR. The dot of a
    regular expression does not match them. *)
Definition is_line_terminator (c : ascii) : bool :=
  Ascii.eqb c "010"%char || Ascii.eqb c "013"%char.

Fixpoint no_line_terminator (s : string) : bool :=
  match s with
  | EmptyString => true
  | String c r => negb (is_line_terminator c) && no_line_terminator r
  end.

(** Leftmost match of [/(?<==).*$/] in [s]: the first position that is
    preceded by [=] and from which no line terminator occurs up to the
    end of input. Returns the text before the match and the match. *)
Fixpoint match_after_eq (prev_is_eq : bool) (s : string) : option (string * string) :=
  if prev_is_eq && no_line_terminator s then Some (EmptyString, s)
  else match s with
       | EmptyString => None
       | String c r =>
           match match_after_eq (Ascii.eqb c "="%char) r with
           | Some (pre, m) => Some (String c pre, m)
           | None => None
           end
       end.

(** GetSubstitution for a pattern without capture groups: [$$], [$&],
    [$`] and [$'] are expanded, every other character (including a [$]
    followed by a digit or by [<]) is copied. *)
Fixpoint expand (pre matched post templ : string) : string :=
  match templ with
  | EmptyString => EmptyString
  | String c r =>
      if Ascii.eqb c "$"%char then
        match r with
        | String d r' =>
            if Ascii.eqb d "$"%char then String "$"%char (expand pre matched post r')
            else if Ascii.eqb d "&"%char then matched +:+ expand pre matched post r'
            else if Ascii.eqb d "`"%char then pre +:+ expand pre matched post r'
            else if Ascii.eqb d "'"%char then post +:+ expand pre matched post r'
            else String c (expand pre matched post r)
        | EmptyString => String c EmptyString
        end
      else String c (expand pre matched post r)
  end.

(** [s.replace(/(?<==).*$/, templ)]: only the first match is replaced;
    the match runs to the end of [s], so nothing follows it. *)
Definition replace_after_eq (s templ : string) : string :=
  match match_after_eq false s with
  | Some (pre, m) => pre +:+ expand pre m EmptyString templ
  | None => s
  end.

End JsString.

(** ** The custom api-version policy of the generated ARM clients *)

Module ApiVersionPolicy.
Import JsString.

(** A pipeline request: the policy reads and writes [url] only. *)
Record PipelineRequest : Type := mkRequest {
  url : string;
  method : string;
  body : option string
}.

Definition with_url (r : PipelineRequest) (u : string) : PipelineRequest :=
  {| url := u; method := method r; body := body r |}.

(** The common body of [sendRequest]: split the URL at every [?]; when
    there are at least two pieces, map the [&]-separated items of the
    second piece and glue the first piece back to them. Pieces after a
    second [?] are not used. *)
Definition rewrite_url (map_item : string -> string) (u : string) : string :=
  match split "?"%char u with
  | p0 :: p1 :: _ => p0 +:+ "?" +:+ join "&" (map map_item (split "&"%char p1))
  | _ => u
  end.

Module Workloads.
(** [item.indexOf("api-version") > -1 ? item.replace(/(?<==).*$/, apiVersion) : item] *)
Definition map_item (apiVersion item : string) : string :=
  if includes "api-version" item then replace_after_eq item apiVersion else item.

Definition sendRequest {R : Type} (apiVersion : string)
    (request : PipelineRequest) (next : PipelineRequest -> R) : R :=
  next (with_url request (rewrite_url (map_item apiVersion) (url request))).
End Workloads.

Module PaloAlto.
(** [item.indexOf("api-version") > -1 ? "api-version=" + apiVersion : item] *)
Definition map_item (apiVersion item : string) : string :=
  if includes "api-version" item then "api-version=" +:+ apiVersion else item.

Definition sendRequest {R : Type} (apiVersion : string)
    (request : PipelineRequest) (next : PipelineRequest -> R) : R :=
  next (with_url request (rewrite_url (map_item apiVersion) (url request))).
End PaloAlto.

(** A policy: a name and a [sendRequest] that receives the request and
    the rest of the pipeline. [R] is the type of responses. A pipeline is
    the list of its policies, in the order in which they run. *)
Record Policy (R : Type) : Type := mkPolicy {
  policy_name : string;
  policy_send : PipelineRequest -> (PipelineRequest -> R) -> R
}.
Arguments mkPolicy {R} _ _.
Arguments policy_name {R} _.
Arguments policy_send {R} _ _ _.

(** [addCustomApiVersionPolicy(apiVersion?)], parameterised by the
    [sendRequest] of the client at hand: nothing is added for a missing or
    empty version. *)
Definition addCustomApiVersionPolicy {R : Type}
    (send : string -> PipelineRequest -> (PipelineRequest -> R) -> R)
    (apiVersion : option string) (pipeline : list (Policy R)) : list (Policy R) :=
  match apiVersion with
  | None => pipeline
  | Some v =>
      if String.eqb v "" then pipeline
      else pipeline ++ [mkPolicy "CustomApiVersionPolicy" (send v)]
  end.

(** Running a request through the policies in order, ending at the
    transport. *)
Fixpoint run_pipeline {R : Type} (pipeline : list (Policy R))
    (transport : PipelineRequest -> R) (request : PipelineRequest) : R :=
  match pipeline with
  | [] => transport request
  | p :: rest => policy_send p request (run_pipeline rest transport)
  end.

(** The value a server reads for query parameter [name]: the query is
    what follows the first [?], up to a [#]; its items are separated by
    [&]; an item is a name, optionally followed by [=] and a value. *)
Definition item_name (item : string) : string :=
  match split "="%char item with
  | n :: _ => n
  | [] => item
  end.

Definition item_value (item : string) : string :=
  match split "="%char item with
  | _ :: v => join "=" v
  | [] => EmptyString
  end.

Definition query_of (u : string) : option string :=
  match split "#"%char u with
  | before_fragment :: _ =>
      match split "?"%char before_fragment with
      | _ :: q => Some (join "?" q)
      | [] => None
      end
  | [] => None
  end.

Definition query_param (name u : string) : option string :=
  match query_of u with
  | Some q =>
      match List.filter (fun item => String.eqb (item_name item) name) (split "&"%char q) with
      | item :: _ => Some (item_value item)
      | [] => None
      end
  | None => None
  end.

End ApiVersionPolicy.

(** ** Result shaping: [SecretClient.getSecretFromSecretBundle] *)

Module Shaping.
Import Js.

(** The client-facing secret ([KeyVaultSecret & DeletedSecret]). *)
Record KeyVaultSecret : Type := mkSecret {
  value : JsVal;
  name : JsVal;
  properties : Obj
}.

(** The type of [parseKeyvaultIdentifier] (imported from [./core/utils],
    which is not among the sources): it receives the collection name and
    the identifier and returns an object, or throws. *)
Definition Parser : Type := string -> JsVal -> Exn + Obj.

(** The properties object literal
    [{ vaultUrl, expiresOn, createdOn, updatedOn, ...secretBundle,
       ...parsedId, ...attributes }]: later entries win. *)
Definition properties_literal (secretBundle parsedId : Obj) (attributes : JsVal)
    (expires created updated : JsVal) : Obj :=
  let literal : Obj :=
    <["updatedOn" := updated]>
      (<["createdOn" := created]>
         (<["expiresOn" := expires]>
            (<["vaultUrl" := get parsedId "vaultUrl"]> ∅))) in
  assign (assign (assign literal secretBundle) parsedId) (spread attributes).

(** [if (deletedSecretBundle.deletedDate) { properties.deletedOn = ...;
    delete properties.deletedDate }] *)
Definition rename_deleted (deletedSecretBundle props : Obj) : Obj :=
  if truthy (get deletedSecretBundle "deletedDate")
  then delete "deletedDate" (<["deletedOn" := get deletedSecretBundle "deletedDate"]> props)
  else props.

(** [if (attributes.k) delete properties.k] *)
Definition drop_if (attributes : JsVal) (k : string) (props : Obj) : Obj :=
  if truthy (read attributes k) then delete k props else props.

(** [if (attributes) { ... }] *)
Definition drop_renamed (attributes : JsVal) (props : Obj) : Obj :=
  if truthy attributes
  then drop_if attributes "updated"
         (drop_if attributes "created"
            (drop_if attributes "expires"
               (drop_if attributes "vaultUrl" props)))
  else props.

(** [getSecretFromSecretBundle(bundle)]. The first component is the
    argument object as the call leaves it: [secretBundle] aliases
    [bundle], so [delete secretBundle.attributes] is visible to the
    caller. The second component is the returned secret, or the thrown
    value. *)
Definition getSecretFromSecretBundle (parseKeyvaultEntityIdentifier : Parser)
    (bundle : Obj) : Obj * (Exn + KeyVaultSecret) :=
  match parseKeyvaultEntityIdentifier "secrets" (get bundle "id") with
  | inl e => (bundle, inl e)
  | inr parsedId =>
      let attributes := get bundle "attributes" in
      let secretBundle := delete "attributes" bundle in
      (secretBundle,
       match get_prop attributes "expires" with
       | inl e => inl e
       | inr expires =>
           let created := read attributes "created" in
           let updated := read attributes "updated" in
           let props := properties_literal secretBundle parsedId attributes
                          expires created updated in
           inr {| value := get secretBundle "value";
                  name := get parsedId "name";
                  properties := drop_renamed attributes (rename_deleted secretBundle props) |}
       end)
  end.

(** Modelled from the spec: the identifier parser [parseKeyvaultIdentifier]
    of [./core/utils], absent from the sources. An identifier has the
    shape [scheme://host/collection/name] with an optional [/version]; the
    name is the segment after the collection (the trailing segment when
    there is no version) and the vault URL is [scheme://host]. Any other
    shape, and a missing identifier, is a decode error. *)
Definition parseKeyvaultIdentifier : Parser := fun collection identifier =>
  match identifier with
  | VStr id =>
      match JsString.split "/"%char id with
      | [scheme; _; host; _; n] =>
          inr (<["name" := VStr n]>
                 (<["vaultUrl" := VStr (scheme +:+ "//" +:+ host)]> ∅))
      | [scheme; _; host; _; n; v] =>
          inr (<["version" := VStr v]>
                 (<["name" := VStr n]>
                    (<["vaultUrl" := VStr (scheme +:+ "//" +:+ host)]> ∅)))
      | _ => inl (Error ("Invalid " +:+ collection +:+ " identifier: " +:+ id))
      end
  | _ => inl (Error "Invalid identifier argument")
  end.

(** The declared input type, as far as the renamed fields are concerned.
    The wire bundle ([SecretBundle | DeletedSecretBundle]) and the parsed
    identifier have no field called [expires], [created], [updated] or
    [deletedOn]. The [attributes] are [undefined] or an object without
    [deletedOn] whose timestamps are a [Date] or [undefined] (here: any
    truthy value or [undefined]). *)
Definition timestamp_ok (attributes : Obj) (k : string) : bool :=
  truthy (get attributes k) || negb (defined (get attributes k)).

Definition old_name_free (o : Obj) : bool :=
  negb (present o "expires") && negb (present o "created")
  && negb (present o "updated") && negb (present o "deletedOn").

Definition attributes_typed (attributes : JsVal) : bool :=
  match attributes with
  | VUndef => true
  | VObj a =>
      timestamp_ok a "expires" && timestamp_ok a "created"
      && timestamp_ok a "updated" && negb (present a "deletedOn")
  | _ => false
  end.

Definition bundle_typed (bundle : Obj) : bool :=
  old_name_free bundle && attributes_typed (get bundle "attributes").

(** The renamed pairs: source field and client-facing field. *)
Definition renamed_pairs : list (string * string) :=
  [("expires", "expiresOn"); ("created", "createdOn");
   ("updated", "updatedOn"); ("deletedDate", "deletedOn")].

(** No pair has both of its names present in [props]. *)
Definition no_duplicated_rename (props : Obj) : bool :=
  forallb (fun p => negb (present props (fst p) && present props (snd p))) renamed_pairs.

End Shaping.

(** ** Pagination: the [*Page] and [*All] async generators *)

Module Paging.
Import Js Shaping.

(** The three list operations of the generated client. *)
Inductive ListOp : Type :=
| GetSecrets
| GetSecretVersions (secretName : string)
| GetDeletedSecrets.

(** One call of a list operation: the first argument is the vault URL or
    the continuation token. *)
Record Request : Type := mkReq {
  req_op : ListOp;
  req_target : JsVal;
  req_options : Obj
}.

(** A page response: [value] is the array of bundles when there is one. *)
Record PageResponse : Type := mkPage {
  resp_value : option (list Obj);
  nextLink : JsVal
}.

(** [PageSettings], the continuation state object shared with the caller. *)
Record PageSettings : Type := mkSettings {
  continuationToken : JsVal;
  maxPageSize : JsVal
}.

(** [{}] *)
Definition empty_settings : PageSettings :=
  {| continuationToken := VUndef; maxPageSize := VUndef |}.

(** What the generators yield: [SecretProperties] for the two property
    listings, a [DeletedSecret] for the deleted-secret listing. *)
Inductive Item : Type :=
| PropertiesItem (p : Obj)
| SecretItem (s : KeyVaultSecret).

(** The call site of a fetch, kept in the log of a step. *)
Inductive Site : Type := FirstPage | Continuation.

Record Exchange : Type := mkExchange {
  ex_site : Site;
  ex_request : Request;
  ex_result : Exn + PageResponse
}.

(** Where a suspended page generator resumes: at its first statement,
    at the head of the [while] loop, or nowhere (returned or thrown). *)
Inductive Pc : Type := AtStart | InLoop | Finished.

(** A suspended page generator: its resumption point, the continuation
    state object it was given, and the operation and request options it
    closes over. *)
Record PageGen : Type := mkGen {
  pc : Pc;
  settings : PageSettings;
  gen_op : ListOp;
  gen_options : Obj
}.

Definition resume_at (st : PageGen) (p : Pc) (g : PageSettings) : PageGen :=
  {| pc := p; settings := g; gen_op := gen_op st; gen_options := gen_options st |}.

(** The result of one [next()]. *)
Inductive Outcome (Y : Type) : Type :=
| Yielded (y : Y)
| Returned
| Threw (e : Exn).
Arguments Yielded {Y} y.
Arguments Returned {Y}.
Arguments Threw {Y} e.

(** How a whole iteration ended. *)
Inductive Final : Type :=
| Completed
| Failed (e : Exn)
| Unfinished.

(** The three page generators, freshly created. *)
Definition listPropertiesOfSecretVersionsPage (secretName : string)
    (continuationState : PageSettings) (options : Obj) : PageGen :=
  {| pc := AtStart; settings := continuationState;
     gen_op := GetSecretVersions secretName; gen_options := options |}.

Definition listPropertiesOfSecretsPage (continuationState : PageSettings)
    (options : Obj) : PageGen :=
  {| pc := AtStart; settings := continuationState;
     gen_op := GetSecrets; gen_options := options |}.

Definition listDeletedSecretsPage (continuationState : PageSettings)
    (options : Obj) : PageGen :=
  {| pc := AtStart; settings := continuationState;
     gen_op := GetDeletedSecrets; gen_options := options |}.

(** A generator from which [next()] returns at once, without a fetch: it
    has returned or thrown, or it is suspended in front of a [while] whose
    token is falsy. *)
Definition is_over (st : PageGen) : bool :=
  match pc st with
  | Finished => true
  | InLoop => negb (truthy (continuationToken (settings st)))
  | AtStart =>
      negb (nullish (continuationToken (settings st)))
      && negb (truthy (continuationToken (settings st)))
  end.

(** A generator closed where it stands. *)
Definition stopped (st : PageGen) : PageGen := resume_at st Finished (settings st).

Section WithServer.
Context {S : Type}.
(** The generated [KeyVaultClient]: a server state and the list
    operations, which answer with a page or throw. *)
Variable fetch : S -> Request -> (Exn + PageResponse) * S.
Variable parseKeyvaultEntityIdentifier : Parser.
(** [this.vaultUrl] *)
Variable vaultUrl : JsVal.

(** The callback given to [map]: the whole secret for the deleted-secret
    listing, its [properties] for the other two. *)
Definition shape_item (op : ListOp) (bundle : Obj) : Exn + Item :=
  match snd (getSecretFromSecretBundle parseKeyvaultEntityIdentifier bundle) with
  | inl e => inl e
  | inr secret =>
      match op with
      | GetDeletedSecrets => inr (SecretItem secret)
      | _ => inr (PropertiesItem (properties secret))
      end
  end.

(** [currentSetResponse.value.map(...)]: the first throwing bundle
    aborts the map. *)
Fixpoint shape_page (op : ListOp) (bundles : list Obj) : Exn + list Item :=
  match bundles with
  | [] => inr []
  | b :: rest =>
      match shape_item op b with
      | inl e => inl e
      | inr x =>
          match shape_page op rest with
          | inl e => inl e
          | inr xs => inr (x :: xs)
          end
      end
  end.

(** What follows a successful fetch at either site, up to the [else]:
    store the next link, then yield the mapped page if there is a
    [value]. [None] means: no [value]. *)
Definition after_fetch (st : PageGen) (resp : PageResponse)
    : PageSettings * option (Outcome (list Item) * PageGen) :=
  let g1 := {| continuationToken := nextLink resp;
               maxPageSize := maxPageSize (settings st) |} in
  (g1,
   match resp_value resp with
   | Some bundles =>
       match shape_page (gen_op st) bundles with
       | inr page => Some (Yielded page, resume_at st InLoop g1)
       | inl e => Some (Threw e, resume_at st Finished g1)
       end
   | None => None
   end).

(** One turn of [while (continuationState.continuationToken) { ... }]
    up to the next suspension. *)
Definition loop_next (st : PageGen) (s : S)
    : Outcome (list Item) * PageGen * S * list Exchange :=
  let g := settings st in
  if truthy (continuationToken g) then
    let req := {| req_op := gen_op st; req_target := continuationToken g;
                  req_options := gen_options st |} in
    let '(r, s1) := fetch s req in
    let log := [mkExchange Continuation req r] in
    match r with
    | inl e => (Threw e, resume_at st Finished g, s1, log)
    | inr resp =>
        match after_fetch st resp with
        | (_, Some (o, st1)) => (o, st1, s1, log)
        | (g1, None) => (Returned, resume_at st Finished g1, s1, log)
        end
    end
  else (Returned, resume_at st Finished g, s, []).

(** [next()] on a page generator: run to the next [yield], return or
    throw. The result carries the new generator state, the new server
    state and the fetches issued by this call. *)
Definition page_next (st : PageGen) (s : S)
    : Outcome (list Item) * PageGen * S * list Exchange :=
  match pc st with
  | Finished => (Returned, st, s, [])
  | InLoop => loop_next st s
  | AtStart =>
      let g := settings st in
      if nullish (continuationToken g) then
        let optionsComplete :=
          assign {[ "maxresults" := maxPageSize g ]} (gen_options st) in
        let req := {| req_op := gen_op st; req_target := vaultUrl;
                      req_options := optionsComplete |} in
        let '(r, s1) := fetch s req in
        let log := [mkExchange FirstPage req r] in
        match r with
        | inl e => (Threw e, resume_at st Finished g, s1, log)
        | inr resp =>
            match after_fetch st resp with
            | (_, Some (o, st1)) => (o, st1, s1, log)
            | (g1, None) =>
                let '(o, st2, s2, log2) := loop_next (resume_at st InLoop g1) s1 in
                (o, st2, s2, log ++ log2)
            end
        end
      else loop_next st s
  end.

(** [for await (const page of gen)]: at most [n] calls of [next()],
    collecting the pages and the fetches. *)
Fixpoint drain_pages (n : nat) (st : PageGen) (s : S)
    : list (list Item) * Final * S * list Exchange :=
  match n with
  | O => ([], Unfinished, s, [])
  | Datatypes.S k =>
      match page_next st s with
      | (Yielded page, st1, s1, log) =>
          let '(ps, fin, s2, log2) := drain_pages k st1 s1 in
          (page :: ps, fin, s2, log ++ log2)
      | (Returned, _, s1, log) => ([], Completed, s1, log)
      | (Threw e, _, s1, log) => ([], Failed e, s1, log)
      end
  end.

(** The body of an [*All] generator,
    [for await (const page of pages) for (const item of page) yield item],
    run for at most [fuel] turns (an item yielded or a page pulled);
    [buffer] holds the items of the current page not yet yielded. The
    result lists the items yielded in order. *)
Fixpoint run_all (fuel : nat) (pages : PageGen) (buffer : list Item) (s : S)
    : list Item * Final * S * list Exchange :=
  match fuel with
  | O => ([], Unfinished, s, [])
  | Datatypes.S f =>
      match buffer with
      | x :: rest =>
          let '(xs, fin, s1, log) := run_all f pages rest s in
          (x :: xs, fin, s1, log)
      | [] =>
          match page_next pages s with
          | (Yielded page, st1, s1, log) =>
              let '(xs, fin, s2, log2) := run_all f st1 page s1 in
              (xs, fin, s2, log ++ log2)
          | (Returned, _, s1, log) => ([], Completed, s1, log)
          | (Threw e, _, s1, log) => ([], Failed e, s1, log)
          end
      end
  end.

(** The three [*All] generators: each runs its page generator on a
    fresh [f = {}]. *)
Definition listPropertiesOfSecretVersionsAll (fuel : nat) (secretName : string)
    (options : Obj) (s : S) : list Item * Final * S * list Exchange :=
  run_all fuel (listPropertiesOfSecretVersionsPage secretName empty_settings options) [] s.

Definition listPropertiesOfSecretsAll (fuel : nat) (options : Obj) (s : S)
    : list Item * Final * S * list Exchange :=
  run_all fuel (listPropertiesOfSecretsPage empty_settings options) [] s.

Definition listDeletedSecretsAll (fuel : nat) (options : Obj) (s : S)
    : list Item * Final * S * list Exchange :=
  run_all fuel (listDeletedSecretsPage empty_settings options) [] s.

End WithServer.

(** [byPage(settings = {})] of the three public list methods hands the
    caller's settings object to the page generator. *)
Inductive Collection : Type :=
| PropertiesOfSecrets
| PropertiesOfSecretVersions (secretName : string)
| DeletedSecrets.

Definition byPage (c : Collection) (options : Obj) (settings : PageSettings) : PageGen :=
  match c with
  | PropertiesOfSecrets => listPropertiesOfSecretsPage settings options
  | PropertiesOfSecretVersions n => listPropertiesOfSecretVersionsPage n settings options
  | DeletedSecrets => listDeletedSecretsPage settings options
  end.

(** The first request of a generator started on [{}]. *)
Definition first_request (vaultUrl : JsVal) (c : Collection) (options : Obj) : Request :=
  {| req_op := gen_op (byPage c options empty_settings);
     req_target := vaultUrl;
     req_options := assign {[ "maxresults" := VUndef ]} options |}.

(** The item-at-a-time iterator of the same methods ([next()] of the
    returned object delegates to the [*All] generator). *)
Definition all_items {S : Type} (fetch : S -> Request -> (Exn + PageResponse) * S)
    (parser : Parser) (vaultUrl : JsVal) (fuel : nat) (c : Collection)
    (options : Obj) (s : S) : list Item * Final * S * list Exchange :=
  match c with
  | PropertiesOfSecrets => listPropertiesOfSecretsAll fetch parser vaultUrl fuel options s
  | PropertiesOfSecretVersions n =>
      listPropertiesOfSecretVersionsAll fetch parser vaultUrl fuel n options s
  | DeletedSecrets => listDeletedSecretsAll fetch parser vaultUrl fuel options s
  end.

(** A server that plays back a finite sequence of responses, one per
    fetch whatever the request; once the sequence is used up the
    transport fails. *)
Definition script_fetch (script : list (Exn + PageResponse)) (_ : Request)
    : (Exn + PageResponse) * list (Exn + PageResponse) :=
  match script with
  | r :: rest => (r, rest)
  | [] => (inl (Error "no response"), [])
  end.

End Paging.

(** ** Client constructors *)

Module Clients.
Import Js ApiVersionPolicy.

(** *** [SecretClient] *)

Definition SERVICE_API_VERSION : string := "7.0".

Record SecretClient (Pipeline Client : Type) : Type := mkSecretClient {
  vaultUrl : JsVal;
  credential : JsVal;
  pipeline : Pipeline;
  client : Client
}.
Arguments mkSecretClient {Pipeline Client} _ _ _ _.
Arguments vaultUrl {Pipeline Client} _.
Arguments credential {Pipeline Client} _.
Arguments pipeline {Pipeline Client} _.
Arguments client {Pipeline Client} _.

(** The [loggingOptions] literal of the constructor. *)
Definition loggingOptions : JsVal :=
  VObj (<["logger" := VFun "logger.info"]>
          (<["logPolicyOptions" :=
               VObj {[ "allowedHeaderNames" :=
                         VArr [VStr "x-ms-keyvault-region";
                               VStr "x-ms-keyvault-network-info";
                               VStr "x-ms-keyvault-service-version"] ]}]> ∅)).

Section SecretClientConstructor.
(** [SDK_VERSION] of [./core/utils/constants] and the collaborators of
    [@azure/core-http] and [./core], none of which is among the sources:
    each may return or throw. *)
Variable SDK_VERSION : string.
Context {AuthPolicy Pipeline Client : Type}.
Variable isTokenCredential : JsVal -> Exn + bool.
Variable challengeBasedAuthenticationPolicy : JsVal -> Exn + AuthPolicy.
Variable signingPolicy : JsVal -> Exn + AuthPolicy.
Variable createPipelineFromOptions : Obj -> AuthPolicy -> Exn + Pipeline.
Variable KeyVaultClient_new : JsVal -> string -> Pipeline -> Exn + Client.

Definition libInfo : string := "azsdk-js-keyvault-secrets/" +:+ SDK_VERSION.

(** Lines 144-153. In the first branch the conditional expression is an
    expression statement: its string is computed and dropped, nothing is
    assigned. The second branch writes to the caller's object. *)
Definition set_user_agent (pipelineOptions : Obj) : Obj :=
  if truthy (get pipelineOptions "userAgentOptions")
  then pipelineOptions
  else <["userAgentOptions" := VObj {[ "userAgentPrefix" := VStr libInfo ]}]> pipelineOptions.

(** [{ ...pipelineOptions, ...{ loggingOptions: {...} } }] *)
Definition internalPipelineOptions (pipelineOptions : Obj) : Obj :=
  assign pipelineOptions {[ "loggingOptions" := loggingOptions ]}.

(** [new SecretClient(vaultUrl, credential, pipelineOptions = {})]. The
    first component is the options object as the call leaves it. *)
Definition SecretClient_new (vaultUrl credential : JsVal) (pipelineOptions : option Obj)
    : Obj * (Exn + SecretClient Pipeline Client) :=
  let options := set_user_agent (default ∅ pipelineOptions) in
  (options,
   match isTokenCredential credential with
   | inl e => inl e
   | inr is_token =>
       match (if is_token then challengeBasedAuthenticationPolicy credential
              else signingPolicy credential) with
       | inl e => inl e
       | inr authPolicy =>
           match createPipelineFromOptions (internalPipelineOptions options) authPolicy with
           | inl e => inl e
           | inr pipeline =>
               match KeyVaultClient_new credential SERVICE_API_VERSION pipeline with
               | inl e => inl e
               | inr client => inr (mkSecretClient vaultUrl credential pipeline client)
               end
           end
       end
   end).

End SecretClientConstructor.

(** *** The generated ARM clients *)

(** The optional parameters read by the two constructors. [pipeline] is
    the result of [options.pipeline.getOrderedPolicies()] when a pipeline
    is supplied. *)
Record ClientOptionalParams (R : Type) : Type := mkParams {
  userAgentPrefix : option string;
  credentialScopes : option JsVal;
  endpoint : option string;
  baseUri : option string;
  host : option string;
  apiVersion : option string;
  opt_pipeline : option (list (Policy R))
}.
Arguments mkParams {R} _ _ _ _ _ _ _.
Arguments userAgentPrefix {R} _.
Arguments credentialScopes {R} _.
Arguments endpoint {R} _.
Arguments baseUri {R} _.
Arguments host {R} _.
Arguments apiVersion {R} _.
Arguments opt_pipeline {R} _.

(** [{}] *)
Definition no_params {R : Type} : ClientOptionalParams R :=
  mkParams None None None None None None None.

(** What is handed to [super(...)]. *)
Record OptionsWithDefaults (R : Type) : Type := mkDefaults {
  requestContentType : string;
  owd_credential : JsVal;
  owd_userAgentPrefix : string;
  owd_endpoint : string;
  owd_options : ClientOptionalParams R
}.
Arguments mkDefaults {R} _ _ _ _ _.
Arguments owd_endpoint {R} _.
Arguments owd_options {R} _.

(** [s || d] on an optional string: the empty string is falsy. *)
Definition or_default (s : option string) (d : string) : string :=
  match s with
  | Some v => if String.eqb v "" then d else v
  | None => d
  end.

(** [a ?? b ?? d] *)
Definition coalesce (a b : option string) (d : string) : string :=
  match a, b with
  | Some v, _ => v
  | None, Some v => v
  | None, None => d
  end.

(** [prefix ? `${prefix} ${packageDetails}` : `${packageDetails}`] *)
Definition user_agent (prefix : option string) (packageDetails : string) : string :=
  match prefix with
  | Some p => if String.eqb p "" then packageDetails else p +:+ " " +:+ packageDetails
  | None => packageDetails
  end.

Definition bearerTokenAuthenticationPolicyName : string := "bearerTokenAuthenticationPolicy".

Definition has_bearer {R : Type} (policies : list (Policy R)) : bool :=
  existsb (fun p => String.eqb (policy_name p) bearerTokenAuthenticationPolicyName) policies.

(** [pipeline.removePolicy({ name })] *)
Definition removePolicy {R : Type} (n : string) (pipeline : list (Policy R)) : list (Policy R) :=
  List.filter (fun p => negb (String.eqb (policy_name p) n)) pipeline.

(** [pipeline.addPolicy(p)]; the model keeps insertion order. *)
Definition addPolicy {R : Type} (p : Policy R) (pipeline : list (Policy R)) : list (Policy R) :=
  pipeline ++ [p].

Record ArmClient (R : Type) : Type := mkArm {
  subscriptionId : JsVal;
  arm_host : string;
  arm_apiVersion : string;
  arm_pipeline : list (Policy R)
}.
Arguments mkArm {R} _ _ _ _.
Arguments subscriptionId {R} _.
Arguments arm_host {R} _.
Arguments arm_apiVersion {R} _.
Arguments arm_pipeline {R} _.

Section ArmConstructors.
Context {R : Type}.
(** [coreClient.ServiceClient]'s constructor, which builds the client's
    pipeline, and [coreRestPipeline.bearerTokenAuthenticationPolicy]
    (given the credential, when one is passed, and the scopes). *)
Variable ServiceClient_new : OptionsWithDefaults R -> Exn + list (Policy R).
Variable bearerTokenAuthenticationPolicy : option JsVal -> JsVal -> Policy R.

(** [new WorkloadsClient(credentials, subscriptionId, options?)]. The
    default written to [options.credentialScopes] shows in [options1],
    the options the constructor goes on to use. *)
Definition WorkloadsClient_new (credentials subscriptionId : JsVal)
    (options : option (ClientOptionalParams R)) : Exn + ArmClient R :=
  if negb (defined credentials) then inl (Error "'credentials' cannot be null")
  else if negb (defined subscriptionId) then inl (Error "'subscriptionId' cannot be null")
  else
    let options0 := default no_params options in
    let userAgentPrefix :=
      user_agent (userAgentPrefix options0) "azsdk-js-arm-workloads/1.0.0-beta.1" in
    let options1 :=
      match credentialScopes options0 with
      | Some v =>
          if truthy v then options0
          else mkParams (Clients.userAgentPrefix options0)
                 (Some (VArr [VStr "https://management.azure.com/.default"]))
                 (endpoint options0) (baseUri options0) (host options0)
                 (apiVersion options0) (opt_pipeline options0)
      | None =>
          mkParams (Clients.userAgentPrefix options0)
            (Some (VArr [VStr "https://management.azure.com/.default"]))
            (endpoint options0) (baseUri options0) (host options0)
            (apiVersion options0) (opt_pipeline options0)
      end in
    let optionsWithDefaults :=
      mkDefaults "application/json; charset=utf-8" credentials userAgentPrefix
        (coalesce (endpoint options1) (baseUri options1) "https://management.azure.com")
        options1 in
    match ServiceClient_new optionsWithDefaults with
    | inl e => inl e
    | inr pipeline0 =>
        let pipeline1 :=
          match opt_pipeline options1 with
          | Some (p :: ps) =>
              if has_bearer (p :: ps) then pipeline0
              else addPolicy
                     (bearerTokenAuthenticationPolicy None
                        (VStr (owd_endpoint optionsWithDefaults +:+ "/.default")))
                     (removePolicy bearerTokenAuthenticationPolicyName pipeline0)
          | _ => pipeline0
          end in
        inr (mkArm subscriptionId
               (or_default (host options1) "https://management.azure.com")
               (or_default (apiVersion options1) "2021-12-01-preview")
               (addCustomApiVersionPolicy Workloads.sendRequest (apiVersion options1) pipeline1))
    end.

(** The second argument of the overloaded [PaloAltoNetworksCloudngfw]
    constructor. *)
Inductive SubscriptionIdOrOptions : Type :=
| ArgMissing
| ArgString (s : string)
| ArgOptions (o : ClientOptionalParams R).

(** [new PaloAltoNetworksCloudngfw(credentials, subscriptionIdOrOptions?, options?)] *)
Definition PaloAltoNetworksCloudngfw_new (credentials : JsVal)
    (subscriptionIdOrOptions : SubscriptionIdOrOptions)
    (options : option (ClientOptionalParams R)) : Exn + ArmClient R :=
  if negb (defined credentials) then inl (Error "'credentials' cannot be null")
  else
    let subscriptionId :=
      match subscriptionIdOrOptions with
      | ArgString s => VStr s
      | _ => VUndef
      end in
    let options0 :=
      match subscriptionIdOrOptions with
      | ArgOptions o => o
      | _ => default no_params options
      end in
    let userAgentPrefix :=
      user_agent (userAgentPrefix options0) "azsdk-js-arm-paloaltonetworksngfw/1.0.0" in
    let optionsWithDefaults :=
      mkDefaults "application/json; charset=utf-8" credentials userAgentPrefix
        (coalesce (endpoint options0) (baseUri options0) "https://management.azure.com")
        options0 in
    match ServiceClient_new optionsWithDefaults with
    | inl e => inl e
    | inr pipeline0 =>
        let bearerTokenAuthenticationPolicyFound :=
          match opt_pipeline options0 with
          | Some (p :: ps) => has_bearer (p :: ps)
          | _ => false
          end in
        let pipeline1 :=
          if bearerTokenAuthenticationPolicyFound then pipeline0
          else addPolicy
                 (bearerTokenAuthenticationPolicy (Some credentials)
                    (match credentialScopes options0 with
                     | Some v =>
                         if nullish v
                         then VStr (owd_endpoint optionsWithDefaults +:+ "/.default")
                         else v
                     | None => VStr (owd_endpoint optionsWithDefaults +:+ "/.default")
                     end))
                 (removePolicy bearerTokenAuthenticationPolicyName pipeline0) in
        inr (mkArm subscriptionId
               (or_default (host options0) "https://management.azure.com")
               (or_default (apiVersion options0) "2022-08-29")
               (addCustomApiVersionPolicy PaloAlto.sendRequest (apiVersion options0) pipeline1))
    end.

End ArmConstructors.

End Clients.

(** ** Long-running operations: the delete and recover pollers *)

Module Poller.
Import Js.

(** Modelled from the spec: the lifecycle status of a poller and the
    serialisable poller state, declared in the poller modules that are
    absent from the sources. *)
Inductive Status : Type := NotStarted | InProgress | Succeeded | Failed.

Inductive Kind : Type := DeleteSecret | RecoverDeletedSecret.

(** The serialisable poller state: the resource name and the status. *)
Record PollerState : Type := mkPoller {
  resourceName : string;
  status : Status
}.

(** The answer of the probe: the resource is observable in the expected
    state, it is not found yet, or the probe failed otherwise. *)
Inductive Probe : Type :=
| Found
| NotFound
| ProbeError (e : Exn).

(** The network round trips a poll can make. *)
Inductive RoundTrip : Type :=
| Initiate (k : Kind) (n : string)
| ProbeGet (k : Kind) (n : string).

Definition terminal (s : Status) : bool :=
  match s with
  | Succeeded | Failed => true
  | NotStarted | InProgress => false
  end.

(** The position of a status in [NotStarted → InProgress → terminal]. *)
Definition rank (s : Status) : nat :=
  match s with
  | NotStarted => 0
  | InProgress => 1
  | Succeeded | Failed => 2
  end.

Section WithService.
Context {W : Type}.
(** The client capabilities bound into the poller: the delete (or
    recover) request and the [get] used as a probe. *)
Variable initiate : Kind -> string -> W -> option Exn * W.
Variable probe : Kind -> string -> W -> Probe * W.

(** Modelled from the spec: [poll()] of [DeleteSecretPoller] and
    [RecoverDeletedSecretPoller] ([./lro/delete/poller] and
    [./lro/recover/poller], absent from the sources). From
    [NotStarted] the poll issues the delete (or recover) request; from
    [InProgress] it probes with a [get]: found means [Succeeded], not
    found means still in progress, any other error means [Failed] and is
    propagated; a terminal poller does not poll. A poll makes at most
    one round trip. The result is the new state, the error propagated
    to the caller if any, the service state and the round trips made. *)
Definition poll (k : Kind) (st : PollerState) (w : W)
    : PollerState * option Exn * W * list RoundTrip :=
  match status st with
  | NotStarted =>
      match initiate k (resourceName st) w with
      | (None, w1) =>
          (mkPoller (resourceName st) InProgress, None, w1, [Initiate k (resourceName st)])
      | (Some e, w1) => (st, Some e, w1, [Initiate k (resourceName st)])
      end
  | InProgress =>
      match probe k (resourceName st) w with
      | (Found, w1) =>
          (mkPoller (resourceName st) Succeeded, None, w1, [ProbeGet k (resourceName st)])
      | (NotFound, w1) => (st, None, w1, [ProbeGet k (resourceName st)])
      | (ProbeError e, w1) =>
          (mkPoller (resourceName st) Failed, Some e, w1, [ProbeGet k (resourceName st)])
      end
  | Succeeded | Failed => (st, None, w, [])
  end.

(** [n] successive polls, whatever their errors: the final state, the
    service state and all round trips. *)
Fixpoint polls (n : nat) (k : Kind) (st : PollerState) (w : W)
    : PollerState * W * list RoundTrip :=
  match n with
  | O => (st, w, [])
  | Datatypes.S m =>
      let '(st1, _, w1, trips) := poll k st w in
      let '(st2, w2, trips2) := polls m k st1 w1 in
      (st2, w2, trips ++ trips2)
  end.

(** [beginDeleteSecret(name, options)] and
    [beginRecoverDeletedSecret(name, options)]: build the poller, from
    [options.resumeFrom] when given, and poll once. *)
Definition begin (k : Kind) (name : string) (resumeFrom : option PollerState) (w : W)
    : PollerState * option Exn * W * list RoundTrip :=
  poll k (default (mkPoller name NotStarted) resumeFrom) w.

Definition beginDeleteSecret := begin DeleteSecret.
Definition beginRecoverDeletedSecret := begin RecoverDeletedSecret.

End WithService.

End Poller.

(** ** Concrete data used to exercise the definitions *)

Module Samples.
Import Js Shaping Paging.

Definition attributes : Obj :=
  <["enabled" := VBool true]>
    (<["expires" := VDate 1767225600000]>
       (<["created" := VDate 1700000000000]>
          (<["updated" := VDate 1700000360000]>
             (<["recoveryLevel" := VStr "Recoverable+Purgeable"]> ∅)))).

Definition bundle : Obj :=
  <["value" := VStr "hunter2"]>
    (<["id" := VStr "https://myvault.vault.azure.net/secrets/db-password/4387e9f3"]>
       (<["contentType" := VStr "text/plain"]>
          (<["attributes" := VObj attributes]> ∅))).

Definition deleted_bundle : Obj :=
  <["recoveryId" := VStr "https://myvault.vault.azure.net/deletedsecrets/db-password"]>
    (<["scheduledPurgeDate" := VDate 1707776000000]>
       (<["deletedDate" := VDate 1700000720000]> bundle)).

(** The bundles of the deleted-secrets example: an identifier and nothing
    else. *)
Definition bundle_A : Obj :=
  {[ "id" := VStr "https://myvault.vault.azure.net/deletedsecrets/A" ]}.
Definition bundle_B : Obj :=
  {[ "id" := VStr "https://myvault.vault.azure.net/deletedsecrets/B" ]}.

(** The same two bundles as a service sends them, with attributes. *)
Definition full_bundle_A : Obj := <["attributes" := VObj attributes]> bundle_A.
Definition full_bundle_B : Obj := <["attributes" := VObj attributes]> bundle_B.

Definition vault : JsVal := VStr "https://myvault.vault.azure.net".

(** A token credential, and collaborators of the [SecretClient]
    constructor that accept whatever they are given. *)
Definition token_credential : JsVal := VObj {[ "getToken" := VFun "getToken" ]}.

Definition isTokenCredential (c : JsVal) : Exn + bool :=
  inr (match read c "getToken" with VFun _ => true | _ => false end).
Definition any_policy (_ : JsVal) : Exn + unit := inr tt.
Definition any_pipeline (options : Obj) (_ : unit) : Exn + Obj := inr options.
Definition any_client (_ : JsVal) (_ : string) (_ : Obj) : Exn + unit := inr tt.

(** Options with a user agent prefix chosen by the caller. *)
Definition options_with_prefix : Obj :=
  {[ "userAgentOptions" := VObj {[ "userAgentPrefix" := VStr "my-app/1.0" ]} ]}.

Definition next_url : string :=
  "https://myvault.vault.azure.net:443/secrets?api-version=7.0&$skiptoken=eyJOZXh0".

(** The page of the deleted-secrets example, literally and with the
    attributes a service sends. *)
Definition example_page : PageResponse := mkPage (Some [bundle_A; bundle_B]) VNull.
Definition full_example_page : PageResponse :=
  mkPage (Some [full_bundle_A; full_bundle_B]) VNull.

(** A first page without [value] that names a next page, followed by a
    last page of one secret. *)
Definition script_valueless_first : list (Exn + PageResponse) :=
  [inr (mkPage None (VStr next_url)); inr (mkPage (Some [bundle]) VUndef)].

(** A page of one secret followed by a page without [value] that still
    names a next page. *)
Definition script_valueless_second : list (Exn + PageResponse) :=
  [inr (mkPage (Some [bundle]) (VStr next_url)); inr (mkPage None (VStr next_url))].

(** A single last page whose [value] is the empty array. *)
Definition script_empty_last : list (Exn + PageResponse) :=
  [inr (mkPage (Some []) VNull)].

(** A URL whose query holds a question mark before the api-version
    item, and the plain URL of the example scenario. *)
Definition url_with_two_marks : string :=
  "https://management.azure.com/providers/Microsoft.Workloads/operations?returnUrl=https://portal.azure.com/?home&api-version=2020-01-01".
Definition url_forwarded : string :=
  "https://management.azure.com/providers/Microsoft.Workloads/operations?returnUrl=https://portal.azure.com/".
Definition url_plain : string :=
  "https://management.azure.com/providers/Microsoft.Workloads/operations?api-version=2020-01-01".
Definition url_stamped : string :=
  "https://management.azure.com/providers/Microsoft.Workloads/operations?api-version=2021-12-01-preview".

End Samples.

(** ** Tracing spans: [createSpan] and [setParentSpan] *)

Module Tracing.
Import Js.

(** A span handed out by the tracer: the name and options it was started
    with, and what its [isRecordingEvents()] answers. *)
Record Span : Type := mkSpan {
  span_name : string;
  span_options : JsVal;
  span_recording : bool
}.

(** The span as it is stored under [spanOptions.parent]. *)
Definition span_value (sp : Span) : JsVal :=
  VObj (<["name" := VStr (span_name sp)]> (<["spanOptions" := span_options sp]> ∅)).

(** A parameter with the default value [{}]. *)
Definition or_empty (options : JsVal) : JsVal :=
  if defined options then options else VObj ∅.

Section WithTracer.
(** Whether the tracer in use hands out recording spans. *)
Variable recording : string -> JsVal -> bool.

(** [createSpan(methodName, requestOptions = {})]: the span is started
    with [requestOptions && requestOptions.spanOptions]. *)
Definition createSpan (methodName : string) (requestOptions : JsVal) : Span :=
  let ro := or_empty requestOptions in
  let spanOptions := if truthy ro then read ro "spanOptions" else ro in
  mkSpan methodName spanOptions (recording methodName spanOptions).

(** [setParentSpan(span, options = {})]: for a recording span a copy of
    the options whose [spanOptions] has the span as [parent], else the
    options themselves. Reading [spanOptions] of [null] throws. *)
Definition setParentSpan (span : Span) (options : JsVal) : Exn + JsVal :=
  let options := or_empty options in
  if span_recording span then
    match get_prop options "spanOptions" with
    | inl e => inl e
    | inr spanOptions =>
        inr (VObj (<["spanOptions" :=
                       VObj (<["parent" := span_value span]> (spread spanOptions))]>
                     (spread options)))
    end
  else inr options.
End WithTracer.

End Tracing.

(** ** The single-secret operations of [SecretClient] *)

Module Operations.
Import Js Shaping Tracing.

(** The operations of the generated [KeyVaultClient] used here. *)
Inductive OpName : Type :=
| OpSetSecret | OpUpdateSecret | OpGetSecret | OpGetDeletedSecret
| OpPurgeDeletedSecret | OpRecoverDeletedSecret | OpBackupSecret
| OpRestoreSecret | OpDeleteSecret.

(** One call: the operation and its arguments in order. *)
Record Call : Type := mkCall {
  call_op : OpName;
  call_args : list JsVal
}.

(** What an operation does, in order: spans started and ended, calls
    made together with their outcome. *)
Inductive Event : Type :=
| StartSpan (sp : Span)
| EndSpan (sp : Span)
| ServiceCall (c : Call) (r : Exn + Obj).

(** [const { enabled, notBefore, expiresOn: expires, ...remainingOptions }
    = requestOptions] followed by
    [{ ...remainingOptions, secretAttributes: { enabled, notBefore, expires } }]. *)
Definition remainingOptions (requestOptions : JsVal) : Obj :=
  delete "expiresOn" (delete "notBefore" (delete "enabled" (spread requestOptions))).

Definition secretAttributes (requestOptions : JsVal) : Obj :=
  <["expires" := read requestOptions "expiresOn"]>
    (<["notBefore" := read requestOptions "notBefore"]>
       (<["enabled" := read requestOptions "enabled"]> ∅)).

Definition unflattenedOptions (requestOptions : JsVal) : Obj :=
  <["secretAttributes" := VObj (secretAttributes requestOptions)]>
    (remainingOptions requestOptions).

Section WithClient.
Context {S : Type}.
(** The generated client, [parseKeyvaultIdentifier],
    [operationOptionsToRequestOptionsBase] of [@azure/core-http] and
    the tracer are collaborators. *)
Variable service : S -> Call -> (Exn + Obj) * S.
Variable parseKeyvaultEntityIdentifier : Parser.
Variable operationOptionsToRequestOptionsBase : JsVal -> JsVal.
Variable recording : string -> JsVal -> bool.
(** [this.vaultUrl] *)
Variable vaultUrl : JsVal.

(** [await this.client.op(...args)] *)
Definition invoke (op : OpName) (args : list JsVal) (s : S)
    : (Exn + Obj) * S * list Event :=
  let c := mkCall op args in
  let '(r, s1) := service s c in
  (r, s1, [ServiceCall c r]).

(** The pattern shared by the traced methods:
    [const span = this.createSpan(name, options);
     try { response = await this.client.op(..., this.setParentSpan(span, options)) }
     finally { span.end() }]. [args] lists the arguments in front of the
    options. *)
Definition traced (name : string) (options : JsVal) (op : OpName)
    (args : list JsVal) (s : S) : (Exn + Obj) * S * list Event :=
  let span := createSpan recording name options in
  let '(r, s1, events) :=
    match setParentSpan span options with
    | inl e => (inl e, s, [])
    | inr o => invoke op (args ++ [o]) s
    end in
  (r, s1, StartSpan span :: events ++ [EndSpan span]).

(** [this.getSecretFromSecretBundle(response)] on a response that was
    received. *)
Definition shaped (r : Exn + Obj) : Exn + KeyVaultSecret :=
  match r with
  | inl e => inl e
  | inr response => snd (getSecretFromSecretBundle parseKeyvaultEntityIdentifier response)
  end.

Definition shaped_properties (r : Exn + Obj) : Exn + Obj :=
  match shaped r with
  | inl e => inl e
  | inr secret => inr (properties secret)
  end.

(** [setSecret(secretName, value, options = {})] *)
Definition setSecret (secretName value : string) (options : JsVal) (s : S)
    : (Exn + KeyVaultSecret) * S * list Event :=
  let requestOptions := operationOptionsToRequestOptionsBase (or_empty options) in
  let '(r, s1, events) :=
    if truthy requestOptions then
      traced "setSecret" (VObj (unflattenedOptions requestOptions)) OpSetSecret
        [vaultUrl; VStr secretName; VStr value] s
    else invoke OpSetSecret [vaultUrl; VStr secretName; VStr value; requestOptions] s in
  (shaped r, s1, events).

(** [updateSecretProperties(secretName, secretVersion, options = {})] *)
Definition updateSecretProperties (secretName secretVersion : string)
    (options : JsVal) (s : S) : (Exn + Obj) * S * list Event :=
  let requestOptions := operationOptionsToRequestOptionsBase (or_empty options) in
  let '(r, s1, events) :=
    if truthy requestOptions then
      traced "updateSecretProperties" (VObj (unflattenedOptions requestOptions))
        OpUpdateSecret [vaultUrl; VStr secretName; VStr secretVersion] s
    else invoke OpUpdateSecret
           [vaultUrl; VStr secretName; VStr secretVersion; requestOptions] s in
  (shaped_properties r, s1, events).

(** [options && options.version ? options.version : ""] *)
Definition version_argument (options : JsVal) : JsVal :=
  if truthy options && truthy (read options "version")
  then read options "version" else VStr "".

(** [getSecret(secretName, options = {})] *)
Definition getSecret (secretName : string) (options : JsVal) (s : S)
    : (Exn + KeyVaultSecret) * S * list Event :=
  let options := or_empty options in
  let requestOptions := operationOptionsToRequestOptionsBase options in
  let '(r, s1, events) :=
    traced "getSecret" requestOptions OpGetSecret
      [vaultUrl; VStr secretName; version_argument options] s in
  (shaped r, s1, events).

(** [getDeletedSecret(secretName, options = {})] *)
Definition getDeletedSecret (secretName : string) (options : JsVal) (s : S)
    : (Exn + KeyVaultSecret) * S * list Event :=
  let requestOptions := operationOptionsToRequestOptionsBase (or_empty options) in
  let '(r, s1, events) :=
    traced "getDeletedSecret" requestOptions OpGetDeletedSecret
      [vaultUrl; VStr secretName] s in
  (shaped r, s1, events).

(** [purgeDeletedSecret(secretName, options = {})]: nothing is
    returned. *)
Definition purgeDeletedSecret (secretName : string) (options : JsVal) (s : S)
    : (Exn + unit) * S * list Event :=
  let requestOptions := operationOptionsToRequestOptionsBase (or_empty options) in
  let '(r, s1, events) :=
    traced "purgeDeletedSecret" requestOptions OpPurgeDeletedSecret
      [vaultUrl; VStr secretName] s in
  (match r with inl e => inl e | inr _ => inr tt end, s1, events).

(** [backupSecret(secretName, options = {})] returns [response.value]. *)
Definition backupSecret (secretName : string) (options : JsVal) (s : S)
    : (Exn + JsVal) * S * list Event :=
  let requestOptions := operationOptionsToRequestOptionsBase (or_empty options) in
  let '(r, s1, events) :=
    traced "backupSecret" requestOptions OpBackupSecret [vaultUrl; VStr secretName] s in
  (match r with inl e => inl e | inr response => inr (get response "value") end,
   s1, events).

(** [restoreSecretBackup(secretBundleBackup, options = {})] *)
Definition restoreSecretBackup (secretBundleBackup : JsVal) (options : JsVal) (s : S)
    : (Exn + Obj) * S * list Event :=
  let requestOptions := operationOptionsToRequestOptionsBase (or_empty options) in
  let '(r, s1, events) :=
    traced "restoreSecretBackup" requestOptions OpRestoreSecret
      [vaultUrl; secretBundleBackup] s in
  (shaped_properties r, s1, events).

(** [deleteSecret(secretName, options = {})]: the options are used as
    they are. *)
Definition deleteSecret (secretName : string) (options : JsVal) (s : S)
    : (Exn + KeyVaultSecret) * S * list Event :=
  let '(r, s1, events) :=
    traced "deleteSecret" (or_empty options) OpDeleteSecret [vaultUrl; VStr secretName] s in
  (shaped r, s1, events).

(** [recoverDeletedSecret(secretName, options = {})]: the response is
    shaped inside the [try], which changes neither the result nor the
    events. *)
Definition recoverDeletedSecret (secretName : string) (options : JsVal) (s : S)
    : (Exn + Obj) * S * list Event :=
  let requestOptions := operationOptionsToRequestOptionsBase (or_empty options) in
  let '(r, s1, events) :=
    traced "recoverDeletedSecret" requestOptions OpRecoverDeletedSecret
      [vaultUrl; VStr secretName] s in
  (shaped_properties r, s1, events).

(** The options that [listPropertiesOfSecrets],
    [listPropertiesOfSecretVersions] and [listDeletedSecrets] hand to
    their generators:
    [{ ...requestOptions, ...this.setParentSpan(span, requestOptions) }].
    The span is ended before the iterator is returned, and not at all
    when [setParentSpan] throws. *)
Definition updatedOptions (name : string) (options : JsVal)
    : (Exn + Obj) * list Event :=
  let requestOptions := operationOptionsToRequestOptionsBase (or_empty options) in
  let span := createSpan recording name requestOptions in
  match setParentSpan span requestOptions with
  | inl e => (inl e, [StartSpan span])
  | inr o => (inr (assign (spread requestOptions) (spread o)), [StartSpan span; EndSpan span])
  end.

End WithClient.

(** The options as the service receives them for the converted request
    options [ro]: the three flattened settings are gone from the top
    level and sit under [secretAttributes], [expiresOn] under the wire
    name [expires]; every other setting but [spanOptions] is as in
    [ro]. *)
Definition wire_options (ro : JsVal) (sent : Obj) : Prop :=
  sent !! "enabled" = None ∧ sent !! "notBefore" = None ∧ sent !! "expiresOn" = None
  ∧ sent !! "secretAttributes" =
      Some (VObj (<["expires" := read ro "expiresOn"]>
                    (<["notBefore" := read ro "notBefore"]>
                       (<["enabled" := read ro "enabled"]> ∅))))
  ∧ ∀ k : string,
      k ≠ "enabled" → k ≠ "notBefore" → k ≠ "expiresOn" →
      k ≠ "secretAttributes" → k ≠ "spanOptions" →
      sent !! k = spread ro !! k.

(** The events of a traced method: one span, started first and ended
    last, around at most one call. *)
Definition one_span (events : list Event) : Prop :=
  ∃ sp middle,
    events = StartSpan sp :: middle ++ [EndSpan sp]
    ∧ (middle = [] ∨ ∃ c r, middle = [ServiceCall c r]).

End Operations.

(** ** Keys of objects *)

Module Keys.
Import Js.

(** [k in o] *)
Definition has_key (o : Obj) (k : string) : bool :=
  match o !! k with
  | Some _ => true
  | None => false
  end.


(** The names that shaping treats specially. *)
Definition handled_names : list string :=
  ["vaultUrl"; "expiresOn"; "createdOn"; "updatedOn";
   "expires"; "created"; "updated"; "deletedOn"; "deletedDate"].

Definition handled (k : string) : bool :=
  existsb (String.eqb k) handled_names.

End Keys.

(** ** Reading the fetch log of an iteration *)

Module PagingLog.
Import Js Paging.

(** The next link of the last page received in [log], or [token] when no
    page was received. *)
Definition last_link (token : JsVal) (log : list Exchange) : JsVal :=
  fold_left (fun t x => match ex_result x with
                        | inr resp => nextLink resp
                        | inl _ => t
                        end) log token.

(** [log] continues from [token]: each fetch is a continuation fetch
    whose first argument is the truthy next link of the page before it,
    sent with the options [options] as they are; nothing follows a fetch
    that threw. *)
Fixpoint chained (op : ListOp) (options : Obj) (token : JsVal) (log : list Exchange) : Prop :=
  match log with
  | [] => True
  | x :: rest =>
      ex_site x = Continuation
      ∧ ex_request x = mkReq op token options
      ∧ truthy token = true
      ∧ match ex_result x with
        | inr resp => chained op options (nextLink resp) rest
        | inl _ => rest = []
        end
  end.

(** The log of an iteration started at the first statement of [st]
    with a nullish token: the first-page request, which alone carries
    [maxresults], then a chain of continuation fetches. *)
Definition begins_and_chains (vaultUrl : JsVal) (st : PageGen)
    (log : list Exchange) : Prop :=
  match log with
  | [] => True
  | x :: rest =>
      ex_site x = FirstPage
      ∧ ex_request x =
          mkReq (gen_op st) vaultUrl
            (assign {[ "maxresults" := maxPageSize (settings st) ]} (gen_options st))
      ∧ match ex_result x with
        | inr resp => chained (gen_op st) (gen_options st) (nextLink resp) rest
        | inl _ => rest = []
        end
  end.

End PagingLog.

(** ** Counting policies *)

Module PipelineFacts.
Import ApiVersionPolicy Clients.

Definition is_bearer {R : Type} (p : Policy R) : bool :=
  String.eqb (policy_name p) bearerTokenAuthenticationPolicyName.

Definition bearer_count {R : Type} (pipeline : list (Policy R)) : nat :=
  List.length (List.filter is_bearer pipeline).


(** A base constructor that builds a pipeline of one logging policy and
    one bearer policy, and a bearer policy factory, used to exercise the
    constructors. Responses are the requests that reach the transport. *)
Definition pass_through (n : string) : Policy PipelineRequest :=
  mkPolicy n (fun request next => next request).

Definition sample_super (_ : OptionsWithDefaults PipelineRequest)
    : Js.Exn + list (Policy PipelineRequest) :=
  inr [pass_through "logPolicy"; pass_through bearerTokenAuthenticationPolicyName].

Definition sample_bearer (_ : option Js.JsVal) (_ : Js.JsVal) : Policy PipelineRequest :=
  pass_through bearerTokenAuthenticationPolicyName.

Definition versioned_options : ClientOptionalParams PipelineRequest :=
  mkParams None None None None None (Some "2021-12-01-preview") None.


End PipelineFacts.

(** ** Sample collaborators of the operations *)

Module OperationSamples.
Import Js Operations.

(** A conversion that hands the options on as they are, and a tracer
    whose spans record. *)
Definition plain_conversion (options : JsVal) : JsVal := options.
Definition recording_tracer (_ : string) (_ : JsVal) : bool := true.

(** A service that stores what it is sent: it answers every call with a
    bundle whose attributes are the [secretAttributes] of the last
    argument. *)
Definition storing_service (_ : unit) (c : Call) : (Exn + Obj) * unit :=
  (inr (<["attributes" := read (default VUndef (last (call_args c))) "secretAttributes"]>
          (<["id" := VStr "https://myvault.vault.azure.net/secrets/db-password/4387e9f3"]>
             (<["value" := VStr "hunter2"]> ∅))),
   tt).

(** Options of [setSecret]: an expiry date, a content type and a
    [secretAttributes] of the caller's own. *)
Definition set_options : Obj :=
  <["expiresOn" := VDate 1767225600000]>
    (<["enabled" := VBool true]>
       (<["contentType" := VStr "text/plain"]>
          (<["secretAttributes" := VStr "mine"]> ∅))).

(** Options of a listing. *)
Definition list_options : Obj := {[ "timeout" := VNum 30000 ]}.

End OperationSamples.


(** * Properties *)

(** ** Objects *)

Section ObjectFacts.
Import Js.
Implicit Types (o a b : gmap string JsVal) (k : string) (v : JsVal).

Lemma get_insert_eq o k v : get (<[k := v]> o) k = v.
Proof. unfold get. by rewrite lookup_insert_eq. Qed.

Lemma get_insert_ne o k k' v : k ≠ k' → get (<[k := v]> o) k' = get o k'.
Proof. intros Hne. unfold get. by rewrite lookup_insert_ne. Qed.

Lemma get_delete_eq o k : get (delete k o) k = VUndef.
Proof. unfold get. by rewrite lookup_delete_eq. Qed.

Lemma get_delete_ne o k k' : k ≠ k' → get (delete k o) k' = get o k'.
Proof. intros Hne. unfold get. by rewrite lookup_delete_ne. Qed.

Lemma get_empty k : get ∅ k = VUndef.
Proof. unfold get. by rewrite lookup_empty. Qed.

(** Reading a spread: the right operand wins where it has the key. *)
Lemma get_assign a b k :
  get (assign a b) k = match b !! k with Some v => v | None => get a k end.
Proof.
  unfold get, assign. destruct (b !! k) as [v|] eqn:Hb.
  - by rewrite (lookup_union_Some_l b a k v Hb).
  - by rewrite lookup_union_r.
Qed.

Lemma present_assign_false a b k :
  present a k = false → present b k = false → present (assign a b) k = false.
Proof.
  unfold present. rewrite get_assign. unfold get at 2.
  destruct (b !! k); simpl; auto.
Qed.

Lemma present_delete_eq o k : present (delete k o) k = false.
Proof. unfold present. by rewrite get_delete_eq. Qed.

Lemma present_delete_ne o k k' : k ≠ k' → present (delete k o) k' = present o k'.
Proof. intros. unfold present. by rewrite get_delete_ne. Qed.

Lemma present_insert_ne o k k' v : k ≠ k' → present (<[k := v]> o) k' = present o k'.
Proof. intros. unfold present. by rewrite get_insert_ne. Qed.

Lemma present_empty k : present ∅ k = false.
Proof. unfold present. by rewrite get_empty. Qed.

End ObjectFacts.

(** ** Result shaping *)

Section ShapingFacts.
Import Js Shaping.
Variable parse : Parser.
Implicit Types (bundle props : gmap string JsVal) (k : string).

(** The only write to the argument is the removal of [attributes], and it
    happens exactly when the identifier parses. *)
Lemma shaped_argument bundle :
  fst (getSecretFromSecretBundle parse bundle) =
    match parse "secrets" (get bundle "id") with
    | inl _ => bundle
    | inr _ => delete "attributes" bundle
    end.
Proof. unfold getSecretFromSecretBundle. by destruct (parse _ _). Qed.

(** When the call returns, the identifier parsed and the attributes are an
    object (or another value with properties). *)
Lemma shaped_result bundle bundle' secret :
  getSecretFromSecretBundle parse bundle = (bundle', inr secret) →
  ∃ parsedId expires,
    parse "secrets" (get bundle "id") = inr parsedId
    ∧ get_prop (get bundle "attributes") "expires" = inr expires
    ∧ bundle' = delete "attributes" bundle
    ∧ secret =
        {| value := get bundle' "value";
           name := get parsedId "name";
           properties :=
             drop_renamed (get bundle "attributes")
               (rename_deleted bundle'
                  (properties_literal bundle' parsedId (get bundle "attributes")
                     expires (read (get bundle "attributes") "created")
                     (read (get bundle "attributes") "updated"))) |}.
Proof.
  unfold getSecretFromSecretBundle.
  destruct (parse _ _) as [e|parsedId]; [intros [= _ ?]; discriminate|].
  destruct (get_prop _ _) as [e|expires] eqn:Hp; intros [= <- <-].
  by exists parsedId, expires.
Qed.

(** Totality on the inputs the client meets: a bundle whose identifier
    parses and which carries an attributes object is shaped. *)
Lemma shaping_returns bundle parsedId a :
  parse "secrets" (get bundle "id") = inr parsedId →
  get bundle "attributes" = VObj a →
  ∃ secret, snd (getSecretFromSecretBundle parse bundle) = inr secret
            ∧ name secret = get parsedId "name".
Proof.
  intros Hp Ha. unfold getSecretFromSecretBundle. rewrite Hp, Ha. simpl.
  eexists. split; reflexivity.
Qed.

(** A bundle without attributes makes the call throw, whatever the
    identifier parser does. *)
Lemma shaping_throws_without_attributes bundle :
  get bundle "attributes" = VUndef →
  ∃ e, snd (getSecretFromSecretBundle parse bundle) = inl e.
Proof.
  intros Ha. unfold getSecretFromSecretBundle.
  destruct (parse _ _) as [e|parsedId]; [by exists e|].
  rewrite Ha. simpl. eauto.
Qed.

(** The removal is visible to whoever shapes the same bundle object
    again: the second call finds no attributes and throws. *)
Lemma shaping_twice_throws bundle parsedId :
  parse "secrets" (get bundle "id") = inr parsedId →
  ∃ e, snd (getSecretFromSecretBundle parse
              (fst (getSecretFromSecretBundle parse bundle))) = inl e.
Proof.
  intros Hp. rewrite shaped_argument, Hp.
  apply shaping_throws_without_attributes. apply get_delete_eq.
Qed.

Lemma present_drop_if attributes k k' props :
  present (drop_if attributes k props) k' =
    if decide (k = k') then negb (truthy (read attributes k)) && present props k'
    else present props k'.
Proof.
  unfold drop_if. destruct (decide (k = k')) as [->|Hne].
  - destruct (truthy _); simpl; [apply present_delete_eq|done].
  - destruct (truthy _); [by apply present_delete_ne|done].
Qed.

Lemma present_literal bundle parsedId a e c u k :
  k ≠ "vaultUrl" → k ≠ "expiresOn" → k ≠ "createdOn" → k ≠ "updatedOn" →
  present bundle k = false → present parsedId k = false →
  present (properties_literal bundle parsedId (VObj a) e c u) k = present a k.
Proof.
  intros Hk1 Hk2 Hk3 Hk4 Hb Hp. unfold properties_literal. simpl spread.
  match goal with |- present (assign ?X a) k = _ => set (lit := X) end.
  assert (Hlit : present lit k = false).
  { subst lit. apply present_assign_false; [|done]. apply present_assign_false; [|done].
    do 4 (rewrite present_insert_ne by congruence).
    apply present_empty. }
  unfold present in *. rewrite get_assign. unfold get at 2.
  destruct (a !! k) as [v|]; done.
Qed.

End ShapingFacts.

Section RenamedFields.
Import Js Shaping.
Variable parse : Parser.
Implicit Types (bundle props a : gmap string JsVal) (k : string).

Lemma present_rename_deleted bundle props k :
  k ≠ "deletedOn" → k ≠ "deletedDate" →
  present (rename_deleted bundle props) k = present props k.
Proof.
  intros H1 H2. unfold rename_deleted. destruct (truthy _); [|done].
  rewrite present_delete_ne by done. by rewrite present_insert_ne.
Qed.

Lemma present_drop_renamed_other a props k :
  k ≠ "vaultUrl" → k ≠ "expires" → k ≠ "created" → k ≠ "updated" →
  present (drop_renamed (VObj a) props) k = present props k.
Proof.
  intros. unfold drop_renamed. simpl truthy. cbv iota.
  rewrite !present_drop_if.
  repeat (case_decide; [congruence|]). done.
Qed.

(** A source timestamp never survives in the shaped properties of a typed
    input. *)
Lemma old_timestamp_absent bundle parsedId a e c u k :
  k = "expires" ∨ k = "created" ∨ k = "updated" →
  timestamp_ok a k = true →
  present bundle k = false → present parsedId k = false →
  present (drop_renamed (VObj a)
             (rename_deleted bundle (properties_literal bundle parsedId (VObj a) e c u))) k
  = false.
Proof.
  intros Hk Hts Hb Hp.
  assert (Hin : present (rename_deleted bundle
                  (properties_literal bundle parsedId (VObj a) e c u)) k = present a k).
  { rewrite present_rename_deleted by (destruct Hk as [->|[->| ->]]; discriminate).
    apply present_literal; try done; destruct Hk as [->|[->| ->]]; discriminate. }
  unfold drop_renamed. simpl truthy. cbv iota.
  rewrite !present_drop_if, Hin. simpl read.
  unfold timestamp_ok, present in *.
  destruct Hk as [->|[->| ->]]; repeat case_decide; try discriminate;
    destruct (truthy (get a _)), (defined (get a _)); done.
Qed.

End RenamedFields.

(** C6: in the properties of a secret shaped from a bundle of the declared
    type, no renamed field is present (holds a value other than
    [undefined]) together with its source field: [expiresOn] excludes
    [expires], [createdOn] excludes [created], [updatedOn] excludes [updated]
    and [deletedOn] excludes [deletedDate]. *)
Theorem renamed_fields_not_duplicated
    (parse : Shaping.Parser) (bundle bundle' parsedId : gmap string Js.JsVal)
    (secret : Shaping.KeyVaultSecret) :
  Shaping.bundle_typed bundle = true →
  parse "secrets" (Js.get bundle "id") = inr parsedId →
  Shaping.old_name_free parsedId = true →
  Shaping.getSecretFromSecretBundle parse bundle = (bundle', inr secret) →
  let props := Shaping.properties secret in
  (Js.present props "expiresOn" = true → Js.present props "expires" = false)
  ∧ (Js.present props "createdOn" = true → Js.present props "created" = false)
  ∧ (Js.present props "updatedOn" = true → Js.present props "updated" = false)
  ∧ (Js.present props "deletedOn" = true → Js.present props "deletedDate" = false).
Proof.
  intros Hty Hparse Hid Hcall.
  destruct (shaped_result parse _ _ _ Hcall) as (p & e & Hp & He & -> & ->).
  rewrite Hparse in Hp. injection Hp as <-.
  unfold Shaping.bundle_typed, Shaping.old_name_free in Hty, Hid.
  repeat (apply andb_prop in Hty as [Hty ?]). repeat (apply andb_prop in Hid as [Hid ?]).
  repeat match goal with H : negb _ = true |- _ => apply negb_true_iff in H end.
  destruct (Js.get bundle "attributes") as [| | | | | | | |a] eqn:Ha; try discriminate.
  unfold Shaping.attributes_typed in *.
  repeat match goal with H : _ && _ = true |- _ => apply andb_prop in H as [H ?] end.
  repeat match goal with H : negb _ = true |- _ => apply negb_true_iff in H end.
  set (sb := delete "attributes" bundle).
  assert (Hsb : ∀ k, k ≠ "attributes" → Js.present sb k = Js.present bundle k).
  { intros k Hk. subst sb. by apply present_delete_ne. }
  simpl. repeat split; intros Hnew.
  1-3: apply old_timestamp_absent;
         [tauto|done|rewrite Hsb by done; done|done].
  rewrite present_drop_renamed_other in * by done.
  unfold Shaping.rename_deleted in *.
  destruct (Js.truthy (Js.get sb "deletedDate")); [apply present_delete_eq|].
  rewrite present_literal in Hnew; [congruence|done..| |done].
  rewrite Hsb by done; done.
Qed.

(** C6 at work: the sample bundle of a deleted secret is typed, and it is
    shaped into properties that hold [expiresOn] and [deletedOn] without
    [expires] and [deletedDate]. *)
Lemma renamed_fields_not_duplicated_witness :
  ∃ secret,
    snd (Shaping.getSecretFromSecretBundle Shaping.parseKeyvaultIdentifier
           Samples.deleted_bundle) = inr secret
    ∧ (Js.present (Shaping.properties secret) "expiresOn" = true →
       Js.present (Shaping.properties secret) "expires" = false)
    ∧ (Js.present (Shaping.properties secret) "deletedOn" = true →
       Js.present (Shaping.properties secret) "deletedDate" = false)
    ∧ Js.present (Shaping.properties secret) "expiresOn" = true
    ∧ Js.present (Shaping.properties secret) "deletedOn" = true.
Proof.
  destruct (Shaping.getSecretFromSecretBundle Shaping.parseKeyvaultIdentifier
              Samples.deleted_bundle) as [b' [e|secret]] eqn:Hcall;
    [vm_compute in Hcall; discriminate|].
  exists secret. split; [reflexivity|].
  pose proof (renamed_fields_not_duplicated Shaping.parseKeyvaultIdentifier
                Samples.deleted_bundle b' _ secret
                ltac:(vm_compute; reflexivity) ltac:(vm_compute; reflexivity)
                ltac:(vm_compute; reflexivity) Hcall) as (H1 & _ & _ & H4).
  split; [exact H1|]. split; [exact H4|].
  vm_compute in Hcall. injection Hcall as _ <-. split; vm_compute; reflexivity.
Defined.

(** C5, as stated, fails on the sample bundle: after the call the argument
    has lost its [attributes]. *)
Lemma getSecretFromSecretBundle_changes_argument :
  Samples.bundle !! "attributes" = Some (Js.VObj Samples.attributes)
  ∧ fst (Shaping.getSecretFromSecretBundle Shaping.parseKeyvaultIdentifier Samples.bundle)
      !! "attributes" = None
  ∧ fst (Shaping.getSecretFromSecretBundle Shaping.parseKeyvaultIdentifier Samples.bundle)
      ≠ Samples.bundle.
Proof.
  split; [reflexivity|]. split; [reflexivity|].
  intros H. apply (f_equal (λ m : gmap string Js.JsVal, m !! "attributes")) in H.
  vm_compute in H. discriminate.
Qed.

(** C5, amended: shaping is a function of its argument alone (no service is
    consulted), and the only change it makes to the argument bundle is to
    remove [attributes]; every other field is as before. The removal takes
    place exactly when the identifier parses; when parsing throws the bundle
    is untouched. *)
Theorem getSecretFromSecretBundle_frame
    (parse : Shaping.Parser) (bundle : gmap string Js.JsVal) :
  let bundle' := fst (Shaping.getSecretFromSecretBundle parse bundle) in
  (∀ k : string, k ≠ "attributes" → bundle' !! k = bundle !! k)
  ∧ (∀ parsedId, parse "secrets" (Js.get bundle "id") = inr parsedId →
       bundle' = delete "attributes" bundle)
  ∧ (∀ e, parse "secrets" (Js.get bundle "id") = inl e → bundle' = bundle).
Proof.
  cbv zeta. rewrite shaped_argument.
  destruct (parse "secrets" (Js.get bundle "id")) as [e|p]; repeat split; try done.
  intros k Hk. by rewrite lookup_delete_ne.
Qed.

(** ** The api-version policy *)

Section ApiVersionFacts.
Import JsString ApiVersionPolicy.

(** The example scenario: both policies stamp the configured version over
    the caller's. *)
Lemma api_version_example_scenario {R : Type} (next : PipelineRequest → R) m b :
  Workloads.sendRequest "2021-12-01-preview" (mkRequest Samples.url_plain m b) next
    = next (mkRequest Samples.url_stamped m b)
  ∧ PaloAlto.sendRequest "2021-12-01-preview" (mkRequest Samples.url_plain m b) next
    = next (mkRequest Samples.url_stamped m b).
Proof. split; reflexivity. Qed.

(** A URL without [?] is forwarded as it is. *)
Lemma rewrite_url_without_query f u :
  split "?"%char u = [u] → rewrite_url f u = u.
Proof. intros H. unfold rewrite_url. by rewrite H. Qed.

(** A configured version puts the policy at the end of the pipeline; a
    missing one adds nothing. *)
Lemma addCustomApiVersionPolicy_configured {R : Type}
    (send : string → PipelineRequest → (PipelineRequest → R) → R) v pipeline :
  v ≠ "" →
  addCustomApiVersionPolicy send (Some v) pipeline
    = pipeline ++ [mkPolicy "CustomApiVersionPolicy" (send v)].
Proof.
  intros Hv. unfold addCustomApiVersionPolicy.
  destruct (String.eqb_spec v ""); [done|reflexivity].
Qed.

(** Through a pipeline made of the policy alone, the transport receives
    the rewritten URL. *)
Lemma run_custom_policy {R : Type} (transport : PipelineRequest → R) v request :
  v ≠ "" →
  run_pipeline (addCustomApiVersionPolicy Workloads.sendRequest (Some v) []) transport request
    = transport (with_url request (rewrite_url (Workloads.map_item v) (url request))).
Proof. intros Hv. by rewrite addCustomApiVersionPolicy_configured. Qed.

End ApiVersionFacts.

(** C1: the caller's URL carries [api-version=2020-01-01] in its query, after
    a parameter whose value holds a question mark. Both policies, configured
    with [2021-12-01-preview], forward a URL cut at that question mark: the
    forwarded request has no api-version parameter at all. *)
Theorem api_version_lost_behind_question_mark
    (R : Type) (next : ApiVersionPolicy.PipelineRequest → R) (m : string) (b : option string) :
  ApiVersionPolicy.query_param "api-version" Samples.url_with_two_marks = Some "2020-01-01"
  ∧ ApiVersionPolicy.Workloads.sendRequest "2021-12-01-preview"
      (ApiVersionPolicy.mkRequest Samples.url_with_two_marks m b) next
    = next (ApiVersionPolicy.mkRequest Samples.url_forwarded m b)
  ∧ ApiVersionPolicy.PaloAlto.sendRequest "2021-12-01-preview"
      (ApiVersionPolicy.mkRequest Samples.url_with_two_marks m b) next
    = next (ApiVersionPolicy.mkRequest Samples.url_forwarded m b)
  ∧ ApiVersionPolicy.query_param "api-version" Samples.url_forwarded = None.
Proof. repeat split; reflexivity. Qed.

(** ** Strings *)

Section StringFacts.
Import JsString.
Implicit Types (s a b : string) (c sep : ascii) (l : list string).

Lemma split_nonempty sep s : split sep s ≠ [].
Proof.
  destruct s as [|c r]; simpl; [done|].
  destruct (Ascii.eqb c sep); [done|]. by destruct (split sep r).
Qed.

(** A string without the separator is a single piece. *)
Lemma split_single sep s : occurs sep s = false → split sep s = [s].
Proof.
  induction s as [|c r IH]; simpl; [done|].
  intros [Hc Hr]%orb_false_elim. rewrite Hc, (IH Hr). done.
Qed.

(** The first piece ends at the first separator. *)
Lemma split_app sep a b :
  occurs sep a = false → split sep (a +:+ String sep b) = a :: split sep b.
Proof.
  induction a as [|c r IH]; simpl.
  - intros _. by rewrite Ascii.eqb_refl.
  - intros [Hc Hr]%orb_false_elim. by rewrite Hc, (IH Hr).
Qed.

Lemma occurs_app c a b : occurs c (a +:+ b) = occurs c a || occurs c b.
Proof. induction a as [|d r IH]; simpl; [done|]. by rewrite IH, orb_assoc. Qed.

(** Joining pieces that are free of a character with a different
    separator gives a string free of it. *)
Lemma occurs_join c sep l :
  c ≠ sep → Forall (λ x, occurs c x = false) l →
  occurs c (join (String sep EmptyString) l) = false.
Proof.
  intros Hne. induction 1 as [|x r Hx Hr IH]; simpl; [done|].
  destruct r as [|y r']; [done|].
  rewrite occurs_app, Hx. simpl.
  destruct (Ascii.eqb_spec sep c) as [->|_]; [done|]. exact IH.
Qed.

(** Splitting undoes joining when no piece holds the separator. *)
Lemma split_join sep l :
  l ≠ [] → Forall (λ x, occurs sep x = false) l →
  split sep (join (String sep EmptyString) l) = l.
Proof.
  intros Hl Hall. induction Hall as [|x r Hx Hr IH]; [done|].
  destruct r as [|y r']; simpl.
  - by apply split_single.
  - change (split sep (x +:+ String sep (join (String sep "") (y :: r'))) = x :: y :: r').
    rewrite split_app by done. f_equal. by apply IH.
Qed.

Lemma prefix_app pat s : String.prefix pat (pat +:+ s) = true.
Proof.
  induction pat as [|d p IH]; simpl; [by destruct s|].
  by destruct (ascii_dec d d).
Qed.

Lemma includes_unfold pat s :
  includes pat s =
    (String.prefix pat s
     || match s with EmptyString => false | String _ r => includes pat r end).
Proof. by destruct s. Qed.

(** A string mentions each of its prefixes. *)
Lemma includes_prefix pat s : includes pat (pat +:+ s) = true.
Proof. by rewrite includes_unfold, prefix_app. Qed.

(** Without [$] in the template nothing is expanded. *)
Lemma expand_plain pre m post templ :
  occurs "$"%char templ = false → expand pre m post templ = templ.
Proof.
  induction templ as [|c r IH]; simpl; [done|].
  intros [Hc Hr]%orb_false_elim. rewrite Hc. by rewrite (IH Hr).
Qed.

Lemma match_after_eq_unfold prev s :
  match_after_eq prev s =
    if prev && no_line_terminator s then Some (EmptyString, s)
    else match s with
         | EmptyString => None
         | String c r =>
             match match_after_eq (Ascii.eqb c "="%char) r with
             | Some (pre, m) => Some (String c pre, m)
             | None => None
             end
         end.
Proof. by destruct s. Qed.

(** In [name=value], with no [=] in the name and no line terminator in
    the value, the match of [/(?<==).*$/] is the value. *)
Lemma match_after_eq_item name value :
  occurs "="%char name = false → no_line_terminator value = true →
  match_after_eq false (name +:+ String "="%char value)
    = Some (name +:+ String "="%char EmptyString, value).
Proof.
  intros Hn Hv. induction name as [|c r IH].
  - rewrite match_after_eq_unfold. simpl.
    rewrite match_after_eq_unfold, Hv. done.
  - apply orb_false_elim in Hn as [Hc Hr].
    rewrite match_after_eq_unfold. simpl. rewrite Hc, (IH Hr). done.
Qed.

End StringFacts.

(** ** The api-version policy on a URL with a single question mark *)

Section SingleMark.
Import JsString ApiVersionPolicy.

(** With one [?] in the URL, the policy maps the items of the query and
    nothing is lost. *)
Lemma rewrite_url_single_mark f base items :
  occurs "?"%char base = false →
  items ≠ [] →
  Forall (λ x, occurs "?"%char x = false) items →
  Forall (λ x, occurs "&"%char x = false) items →
  rewrite_url f (base +:+ "?" +:+ join "&" items)
    = base +:+ "?" +:+ join "&" (map f items).
Proof.
  intros Hb Hne Hq Ha. unfold rewrite_url.
  change (base +:+ "?" +:+ join "&" items)
    with (base +:+ String "?"%char (join "&" items)).
  rewrite split_app by done.
  rewrite split_single by (by apply occurs_join).
  by rewrite split_join.
Qed.

(** [PaloAltoNetworksCloudngfw] replaces the whole api-version item. *)
Lemma paloalto_item v old :
  PaloAlto.map_item v ("api-version=" +:+ old) = "api-version=" +:+ v.
Proof.
  unfold PaloAlto.map_item.
  change ("api-version=" +:+ old) with ("api-version" +:+ String "="%char old).
  by rewrite includes_prefix.
Qed.

(** [WorkloadsClient] replaces what follows the [=], provided the old
    value has no line terminator and the configured version no [$]. *)
Lemma workloads_item v old :
  no_line_terminator old = true → occurs "$"%char v = false →
  Workloads.map_item v ("api-version=" +:+ old) = "api-version=" +:+ v.
Proof.
  intros Ho Hv. unfold Workloads.map_item.
  change ("api-version=" +:+ old) with ("api-version" +:+ String "="%char old).
  rewrite includes_prefix. unfold replace_after_eq.
  rewrite (match_after_eq_item "api-version" old eq_refl Ho).
  by rewrite expand_plain.
Qed.

(** An item that does not mention [api-version] is left alone. *)
Lemma other_item v item :
  includes "api-version" item = false →
  Workloads.map_item v item = item ∧ PaloAlto.map_item v item = item.
Proof. intros H. unfold Workloads.map_item, PaloAlto.map_item. by rewrite H. Qed.

(** On a URL with one [?] whose query holds [api-version=old] among
    items that do not mention api-version, both policies forward the same
    URL with [api-version=v] in its place, for a version [v] without [$]
    and an old value without line terminator. *)
Lemma api_version_rewritten {R : Type} (next : PipelineRequest → R)
    v base before old after m b :
  occurs "?"%char base = false →
  Forall (λ x, occurs "?"%char x = false ∧ occurs "&"%char x = false
               ∧ includes "api-version" x = false) (before ++ after) →
  occurs "?"%char old = false → occurs "&"%char old = false →
  no_line_terminator old = true → occurs "$"%char v = false →
  let u old' := base +:+ "?" +:+ join "&" (before ++ ("api-version=" +:+ old') :: after) in
  Workloads.sendRequest v (mkRequest (u old) m b) next = next (mkRequest (u v) m b)
  ∧ PaloAlto.sendRequest v (mkRequest (u old) m b) next = next (mkRequest (u v) m b).
Proof.
  intros Hb Hitems Hq Ha Hl Hv u.
  apply Forall_app in Hitems as [Hbefore Hafter].
  assert (Hmap : ∀ f, f ("api-version=" +:+ old) = "api-version=" +:+ v →
                      (∀ x, includes "api-version" x = false → f x = x) →
                      rewrite_url f (u old) = u v).
  { intros f Hf Hother.
    assert (Hid : ∀ l, Forall (λ x, occurs "?"%char x = false ∧ occurs "&"%char x = false
                                    ∧ includes "api-version" x = false) l →
                       map f l = l).
    { induction 1 as [|x l (_ & _ & Hx) _ IH]; simpl; [done|]. by rewrite IH, Hother. }
    unfold u. rewrite rewrite_url_single_mark.
    - rewrite map_app. simpl. by rewrite Hf, !Hid.
    - done.
    - by destruct before.
    - apply Forall_app. split; [eapply Forall_impl; [exact Hbefore|]; naive_solver|].
      constructor; [|eapply Forall_impl; [exact Hafter|]; naive_solver].
      by rewrite occurs_app, Hq.
    - apply Forall_app. split; [eapply Forall_impl; [exact Hbefore|]; naive_solver|].
      constructor; [|eapply Forall_impl; [exact Hafter|]; naive_solver].
      by rewrite occurs_app, Ha. }
  unfold Workloads.sendRequest, PaloAlto.sendRequest, with_url. simpl. split; f_equal.
  - rewrite (Hmap (Workloads.map_item v)); [done|by apply workloads_item|].
    intros x Hx. by apply other_item.
  - rewrite (Hmap (PaloAlto.map_item v)); [done|by apply paloalto_item|].
    intros x Hx. by apply other_item.
Qed.

End SingleMark.

(** ** Pagination *)

(** Case analysis along the control flow of one [next()]. *)
Ltac break_match :=
  match goal with
  | |- context [match ?x with _ => _ end] => destruct x eqn:?
  | H : context [match ?x with _ => _ end] |- _ => destruct x eqn:?
  end.

Ltac step_cases :=
  unfold Paging.page_next, Paging.loop_next, Paging.after_fetch, Paging.script_fetch in *;
  simpl in *;
  repeat (break_match; simpl in *; simplify_eq).

Section PagingFacts.
Import Js Shaping Paging.
Context {S : Type}.
Variable fetch : S → Request → (Exn + PageResponse) * S.
Variable parse : Parser.
Variable vaultUrl : JsVal.

Abbreviation next := (page_next fetch parse vaultUrl).
Abbreviation drain := (drain_pages fetch parse vaultUrl).
Abbreviation run := (run_all fetch parse vaultUrl).

Lemma stopped_over st : is_over (stopped st) = true.
Proof. reflexivity. Qed.

Lemma stopped_idem st : stopped (stopped st) = stopped st.
Proof. reflexivity. Qed.


(** Conversely, a [next()] that fetches nothing was called on a generator
    that was over. *)
Lemma next_silent_over st s o st' s' :
  next st s = (o, st', s', []) → is_over st = true.
Proof.
  destruct st as [[] g op opts]; intros H; unfold is_over; step_cases; done.
Qed.

(** Every [next()] leaves a generator that keeps its closure and has left
    its first statement; it is suspended in the loop only after a yield. *)
Lemma next_pc st s o st' s' log :
  next st s = (o, st', s', log) →
  gen_op st' = gen_op st ∧ gen_options st' = gen_options st
  ∧ (pc st' = Finished ∨ (pc st' = InLoop ∧ ∃ page, o = Yielded page)).
Proof.
  destruct st as [[] g op opts]; intros H; step_cases; naive_solver.
Qed.


(** *** Whole iterations *)

(** A yield is preceded by a fetch in the same [next()]. *)
Lemma yield_fetches st s page st' s' log :
  next st s = (Yielded page, st', s', log) → log ≠ [].
Proof.
  intros H. destruct st as [[] g op opts]; step_cases; simplify_eq; done.
Qed.

(** A yield that leaves the generator over was fed by a page without
    next link. *)
Lemma yield_then_over st s page st' s' log :
  next st s = (Yielded page, st', s', log) → is_over st' = true →
  ∃ x resp, last log = Some x ∧ ex_result x = inr resp
            ∧ truthy (nextLink resp) = false.
Proof.
  intros H. destruct st as [[] g op opts]; unfold is_over; step_cases; simplify_eq;
    simpl; rewrite ?negb_true_iff; eauto.
Qed.

(** A return in the [next()] that fetched was caused by a page without
    next link, or by a continuation page without [value]. *)
Lemma return_after_fetch st s st' s' log :
  next st s = (Returned, st', s', log) → log ≠ [] →
  ∃ x resp, last log = Some x ∧ ex_result x = inr resp
            ∧ (truthy (nextLink resp) = false
               ∨ (ex_site x = Continuation ∧ resp_value resp = None)).
Proof.
  intros H. destruct st as [[] g op opts]; step_cases; simplify_eq; simpl;
    intros; try done; eauto 7.
Qed.

(** An iteration that completes without a fetch started on a generator
    that was over. *)
Lemma drain_silent n st s ps s' :
  drain n st s = (ps, Completed, s', []) → is_over st = true.
Proof.
  destruct n as [|n]; simpl; [done|].
  destruct (next st s) as [[[[page| |e] st1] s1] log1] eqn:Hnext.
  - destruct (drain n st1 s1) as [[[ps' fin'] s2] log2].
    intros [= _ _ _ [Hl _]%app_eq_nil]. by apply yield_fetches in Hnext.
  - intros [= _ _ ->]. by eapply next_silent_over.
  - done.
Qed.

(** The last page fetched by an iteration that completes either has no
    next link, or was fetched through a continuation token and has no
    [value]. *)
Lemma completed_run_last_page n st s ps s' log :
  drain n st s = (ps, Completed, s', log) → log ≠ [] →
  ∃ x resp, last log = Some x ∧ ex_result x = inr resp
            ∧ (truthy (nextLink resp) = false
               ∨ (ex_site x = Continuation ∧ resp_value resp = None)).
Proof.
  revert st s ps log. induction n as [|n IH]; intros st s ps log; simpl; [done|].
  destruct (next st s) as [[[[page| |e] st1] s1] log1] eqn:Hnext.
  - destruct (drain n st1 s1) as [[[ps' fin'] s2] log2] eqn:Hd.
    intros [= <- -> <- <-] _. destruct log2 as [|y log2'].
    + rewrite app_nil_r. apply drain_silent in Hd.
      destruct (yield_then_over _ _ _ _ _ _ Hnext Hd) as (x & resp & ? & ? & ?).
      eauto 6.
    + destruct (IH st1 s1 ps' (y :: log2') Hd ltac:(done)) as (x & resp & Hl & ? & ?).
      exists x, resp. split; [|done]. rewrite last_app, Hl. done.
  - intros [= <- <- <-]. by eapply return_after_fetch.
  - done.
Qed.

(** *** Pages against the flattened iteration *)

Lemma run_buffer buffer f st s :
  run (List.length buffer + f) st buffer s =
    (let '(xs, fin, s1, log) := run f st [] s in (buffer ++ xs, fin, s1, log)).
Proof.
  induction buffer as [|x rest IH]; simpl.
  - by destruct (run f st [] s) as [[[xs fin] s1] log].
  - rewrite IH. by destruct (run f st [] s) as [[[xs fin] s1] log].
Qed.

(** More calls do not change an iteration that has ended. *)
Lemma drain_more n m st s ps fin s' log :
  drain n st s = (ps, fin, s', log) → fin ≠ Unfinished → n ≤ m →
  drain m st s = (ps, fin, s', log).
Proof.
  revert m st s ps log. induction n as [|n IH]; intros m st s ps log; simpl.
  - intros [= <- <- <- <-]. done.
  - intros Hd Hfin Hle. destruct m as [|m]; [lia|]. simpl.
    destruct (next st s) as [[[[page| |e] st1] s1] log1]; try done.
    destruct (drain n st1 s1) as [[[ps' fin'] s2] log2] eqn:Hn.
    injection Hd as <- <- <- <-.
    by rewrite (IH m st1 s1 ps' log2 Hn Hfin ltac:(lia)).
Qed.

(** When the iteration by page ends, so does the flattened iteration, in
    the same way, after the same fetches, and its items are the pages
    concatenated. *)
Lemma pages_to_items n st s ps fin s' log :
  drain n st s = (ps, fin, s', log) → fin ≠ Unfinished →
  ∃ F, ∀ f, F ≤ f → run f st [] s = (List.concat ps, fin, s', log).
Proof.
  revert st s ps log. induction n as [|n IH]; intros st s ps log; simpl.
  - intros [= <- <- <- <-]. done.
  - destruct (next st s) as [[[[page| |e] st1] s1] log1] eqn:Hnext.
    + destruct (drain n st1 s1) as [[[ps' fin'] s2] log2] eqn:Hn.
      intros [= <- <- <- <-] Hfin.
      destruct (IH st1 s1 ps' log2 Hn Hfin) as [F HF].
      exists (Datatypes.S (List.length page + F)). intros f Hf.
      destruct f as [|f]; [lia|]. simpl. rewrite Hnext.
      replace f with (List.length page + (f - List.length page)) by lia.
      rewrite run_buffer, HF by lia. done.
    + intros [= <- <- <- <-] _. exists 1. intros [|f] Hf; [lia|].
      simpl. by rewrite Hnext.
    + intros [= <- <- <- <-] _. exists 1. intros [|f] Hf; [lia|].
      simpl. by rewrite Hnext.
Qed.

(** And conversely. *)
Lemma items_to_pages f st buffer s xs fin s' log :
  run f st buffer s = (xs, fin, s', log) → fin ≠ Unfinished →
  ∃ n ps, drain n st s = (ps, fin, s', log) ∧ xs = buffer ++ List.concat ps.
Proof.
  revert st buffer s xs log. induction f as [|f IH]; intros st buffer s xs log; simpl.
  - intros [= <- <- <- <-]. done.
  - destruct buffer as [|x rest].
    + destruct (next st s) as [[[[page| |e] st1] s1] log1] eqn:Hnext.
      * destruct (run f st1 page s1) as [[[xs' fin'] s2] log2] eqn:Hr.
        intros [= <- <- <- <-] Hfin.
        destruct (IH st1 page s1 xs' log2 Hr Hfin) as (n & ps & Hd & ->).
        exists (Datatypes.S n), (page :: ps). simpl. by rewrite Hnext, Hd.
      * intros [= <- <- <- <-] _. exists 1, []. simpl. by rewrite Hnext.
      * intros [= <- <- <- <-] _. exists 1, []. simpl. by rewrite Hnext.
    + destruct (run f st rest s) as [[[xs' fin'] s2] log2] eqn:Hr.
      intros [= <- <- <- <-] Hfin.
      destruct (IH st rest s xs' log2 Hr Hfin) as (n & ps & Hd & ->).
      by exists n, ps.
Qed.

End PagingFacts.

(** *** A finite sequence of responses *)

Section ScriptFacts.
Import Js Shaping Paging.
Variable parse : Parser.
Variable vaultUrl : JsVal.

Abbreviation next := (page_next script_fetch parse vaultUrl).
Abbreviation drain := (drain_pages script_fetch parse vaultUrl).

(** A yield costs at least one response of the script. *)
Lemma yield_consumes st script page st1 script1 log :
  next st script = (Yielded page, st1, script1, log) →
  List.length script1 < List.length script.
Proof.
  intros H. destruct st as [[] g op opts]; step_cases; simplify_eq; simpl; lia.
Qed.

(** Pagination terminates on every finite sequence of responses: one
    more call than there are responses ends the iteration. *)
Lemma drain_script_ends n script st :
  List.length script ≤ n →
  ∃ ps fin script' log,
    drain (Datatypes.S n) st script = (ps, fin, script', log) ∧ fin ≠ Unfinished.
Proof.
  revert script st. induction n as [|n IH]; intros script st Hlen.
  - simpl. destruct (next st script) as [[[[page| |e] st1] s1] log1] eqn:Hnext.
    + apply yield_consumes in Hnext. lia.
    + by eexists _, _, _, _.
    + by eexists _, _, _, _.
  - change (drain (Datatypes.S (Datatypes.S n)) st script)
      with (match next st script with
            | (Yielded page, st1, s1, log) =>
                let '(ps, fin, s2, log2) := drain (Datatypes.S n) st1 s1 in
                (page :: ps, fin, s2, log ++ log2)
            | (Returned, _, s1, log) => ([], Completed, s1, log)
            | (Threw e, _, s1, log) => ([], Failed e, s1, log)
            end).
    destruct (next st script) as [[[[page| |e] st1] s1] log1] eqn:Hnext.
    + pose proof (yield_consumes _ _ _ _ _ _ Hnext) as Hlt.
      destruct (IH s1 st1 ltac:(lia)) as (ps & fin & s2 & log2 & Hd & Hfin).
      rewrite Hd. by eexists _, _, _, _.
    + by eexists _, _, _, _.
    + by eexists _, _, _, _.
Qed.

End ScriptFacts.

(** C4: against every finite sequence of page responses and for each of
    the three collections, iterating by page ends, iterating item by item
    ends in the same way after the same fetches, and the items are the
    pages concatenated in order. *)
Theorem pages_concat_is_flattened
    (parse : Shaping.Parser) (vaultUrl : Js.JsVal) (c : Paging.Collection)
    (options : gmap string Js.JsVal)
    (script : list (Js.Exn + Paging.PageResponse)) :
  ∃ pages fin script' log,
    fin ≠ Paging.Unfinished
    ∧ (∀ n, List.length script < n →
         Paging.drain_pages Paging.script_fetch parse vaultUrl n
           (Paging.byPage c options Paging.empty_settings) script
         = (pages, fin, script', log))
    ∧ (∃ F, ∀ f, F ≤ f →
         Paging.all_items Paging.script_fetch parse vaultUrl f c options script
         = (List.concat pages, fin, script', log)).
Proof.
  destruct (drain_script_ends parse vaultUrl (List.length script) script
              (Paging.byPage c options Paging.empty_settings) ltac:(lia))
    as (ps & fin & s' & log & Hd & Hfin).
  exists ps, fin, s', log. split; [done|]. split.
  - intros n Hn. eapply drain_more; [exact Hd|done|lia].
  - destruct (pages_to_items _ _ _ _ _ _ _ _ _ _ Hd Hfin) as [F HF].
    exists F. intros f Hf. specialize (HF f Hf). by destruct c.
Qed.

(** *** The first page *)

Section FirstPage.
Import Js Shaping Paging.
Context {S : Type}.
Variable fetch : S → Request → (Exn + PageResponse) * S.
Variable parse : Parser.
Variable vaultUrl : JsVal.

Abbreviation first_request := (Paging.first_request vaultUrl).

(** A first page with neither [value] nor next link ends the sequence at
    once: nothing is yielded and nothing more is fetched. *)
Lemma valueless_first_page_without_link c options s resp s1 :
  fetch s (first_request c options) = (inr resp, s1) →
  resp_value resp = None → truthy (nextLink resp) = false →
  ∃ st', page_next fetch parse vaultUrl (byPage c options empty_settings) s
         = (Returned, st', s1,
            [mkExchange FirstPage (first_request c options) (inr resp)])
         ∧ is_over st' = true.
Proof.
  intros Hf Hv Hl. unfold Paging.first_request in Hf.
  destruct c; unfold page_next, loop_next, after_fetch; simpl in *;
    rewrite Hf, Hv; simpl; rewrite Hl; eauto.
Qed.

(** A first page without [value] that names a next page does not end the
    sequence: the same [next()] goes on to fetch that page. *)
Lemma valueless_first_page_with_link c options s resp s1 :
  fetch s (first_request c options) = (inr resp, s1) →
  resp_value resp = None → truthy (nextLink resp) = true →
  ∃ o st' s2 x,
    page_next fetch parse vaultUrl (byPage c options empty_settings) s
    = (o, st', s2, [mkExchange FirstPage (first_request c options) (inr resp); x])
    ∧ ex_site x = Continuation
    ∧ req_target (ex_request x) = nextLink resp.
Proof.
  intros Hf Hv Hl. unfold Paging.first_request in Hf.
  destruct c; unfold page_next, loop_next, after_fetch; simpl in *;
    rewrite Hf, Hv; simpl; rewrite Hl;
    match goal with |- context [fetch s1 ?r] => destruct (fetch s1 r) as [[e|resp2] s2] end;
    simpl; repeat break_match; simplify_eq; eauto 10.
Qed.

(** A page of bundles without attributes cannot be mapped, whatever the
    identifier parser does. *)
Lemma shape_page_without_attributes op bundle rest :
  get bundle "attributes" = VUndef →
  ∃ e, shape_page parse op (bundle :: rest) = inl e.
Proof.
  intros Ha. simpl. unfold shape_item.
  destruct (shaping_throws_without_attributes parse bundle Ha) as [e ->]. eauto.
Qed.

(** A first page whose bundles cannot be mapped makes the first
    [next()] throw; the page is not yielded. *)
Lemma unmappable_first_page c options s resp s1 bundles e :
  fetch s (first_request c options) = (inr resp, s1) →
  resp_value resp = Some bundles →
  shape_page parse (gen_op (byPage c options empty_settings)) bundles = inl e →
  ∃ st', page_next fetch parse vaultUrl (byPage c options empty_settings) s
         = (Threw e, st', s1,
            [mkExchange FirstPage (first_request c options) (inr resp)]).
Proof.
  intros Hf Hv He. unfold Paging.first_request in Hf.
  destruct c; unfold page_next, loop_next, after_fetch; simpl in *;
    rewrite Hf, Hv, He; eauto.
Qed.

End FirstPage.



(** C3: against a first page without [value] that names a next page,
    followed by a last page of one secret, the first [next()] of each of the
    three page generators makes two fetches, the second one to the next
    link, and yields the secret of the second page. *)
Theorem valueless_first_page_is_followed (c : Paging.Collection) :
  ∃ item st' x1 x2,
    Paging.page_next Paging.script_fetch Shaping.parseKeyvaultIdentifier Samples.vault
      (Paging.byPage c ∅ Paging.empty_settings) Samples.script_valueless_first
    = (Paging.Yielded [item], st', [], [x1; x2])
    ∧ Paging.ex_result x1 = inr (Paging.mkPage None (Js.VStr Samples.next_url))
    ∧ Paging.ex_site x2 = Paging.Continuation
    ∧ Paging.req_target (Paging.ex_request x2) = Js.VStr Samples.next_url.
Proof.
  destruct c; eexists _, _, _, _; (split; [vm_compute; reflexivity|]);
    repeat split; reflexivity.
Qed.

(** C7: on the page of the example, two bundles that hold an identifier
    and nothing else and no next link, the deleted-secrets generator throws
    in its first [next()]: mapping the first bundle reads [expires] of its
    missing attributes. No secret is yielded, by page or item by item, and
    this is so whatever the identifier parser does. *)
Theorem deleted_secrets_example_throws (parse : Shaping.Parser) :
  ∃ e,
    (∃ st' x,
       Paging.page_next Paging.script_fetch parse Samples.vault
         (Paging.listDeletedSecretsPage Paging.empty_settings ∅) [inr Samples.example_page]
       = (Paging.Threw e, st', [], [x]))
    ∧ (∀ n, ∃ log,
         Paging.drain_pages Paging.script_fetch parse Samples.vault (Datatypes.S n)
           (Paging.listDeletedSecretsPage Paging.empty_settings ∅) [inr Samples.example_page]
         = ([], Paging.Failed e, [], log))
    ∧ (∀ f, ∃ log,
         Paging.listDeletedSecretsAll Paging.script_fetch parse Samples.vault (Datatypes.S f) ∅
           [inr Samples.example_page]
         = ([], Paging.Failed e, [], log)).
Proof.
  destruct (shape_page_without_attributes parse Paging.GetDeletedSecrets
              Samples.bundle_A [Samples.bundle_B] eq_refl) as [e He].
  destruct (unmappable_first_page Paging.script_fetch parse Samples.vault
              Paging.DeletedSecrets ∅ [inr Samples.example_page] Samples.example_page []
              _ e eq_refl eq_refl He) as [st' Hn].
  assert (Hn' : ∃ st' x,
             Paging.page_next Paging.script_fetch parse Samples.vault
               (Paging.listDeletedSecretsPage Paging.empty_settings ∅) [inr Samples.example_page]
             = (Paging.Threw e, st', [], [x])) by eauto.
  clear st' Hn. rename Hn' into Hn.
  exists e. split; [exact Hn|]. destruct Hn as (st' & x & Hn).
  split; intros n.
  - simpl. rewrite Hn. eauto.
  - unfold Paging.listDeletedSecretsAll. simpl. rewrite Hn. eauto.
Qed.

(** With the attributes a service sends, and the parser modelled from the
    specification, the same page yields exactly the two secrets named [A]
    and [B], and the sequence ends there. *)
Lemma deleted_secrets_example_with_attributes :
  ∃ a b st' x,
    Paging.page_next Paging.script_fetch Shaping.parseKeyvaultIdentifier Samples.vault
      (Paging.listDeletedSecretsPage Paging.empty_settings ∅) [inr Samples.full_example_page]
    = (Paging.Yielded [Paging.SecretItem a; Paging.SecretItem b], st', [], [x])
    ∧ Shaping.name a = Js.VStr "A" ∧ Shaping.name b = Js.VStr "B"
    ∧ Paging.page_next Paging.script_fetch Shaping.parseKeyvaultIdentifier Samples.vault st' []
      = (Paging.Returned, Paging.stopped st', [], []).
Proof.
  eexists _, _, _, _. split; [vm_compute; reflexivity|].
  repeat split; reflexivity.
Qed.

(** ** Client constructors *)

Section SecretClientFacts.
Import Js Clients.
Variable SDK_VERSION : string.
Context {AuthPolicy Pipeline Client : Type}.
Variable isTokenCredential : JsVal → Exn + bool.
Variable challengeBasedAuthenticationPolicy : JsVal → Exn + AuthPolicy.
Variable signingPolicy : JsVal → Exn + AuthPolicy.
Variable createPipelineFromOptions : gmap string JsVal → AuthPolicy → Exn + Pipeline.
Variable KeyVaultClient_new : JsVal → string → Pipeline → Exn + Client.

Abbreviation construct :=
  (SecretClient_new SDK_VERSION isTokenCredential challengeBasedAuthenticationPolicy
     signingPolicy createPipelineFromOptions KeyVaultClient_new).


Lemma set_user_agent_supplied (pipelineOptions : gmap string JsVal) :
  truthy (get pipelineOptions "userAgentOptions") = true →
  set_user_agent SDK_VERSION pipelineOptions = pipelineOptions.
Proof. intros H. unfold set_user_agent. by rewrite H. Qed.

Lemma set_user_agent_omitted (pipelineOptions : gmap string JsVal) :
  truthy (get pipelineOptions "userAgentOptions") = false →
  set_user_agent SDK_VERSION pipelineOptions
    = <["userAgentOptions" := VObj {[ "userAgentPrefix" := VStr (libInfo SDK_VERSION) ]}]>
        pipelineOptions.
Proof. intros H. unfold set_user_agent. by rewrite H. Qed.

Lemma internal_options_keep (pipelineOptions : gmap string JsVal) (k : string) :
  k ≠ "loggingOptions" →
  get (internalPipelineOptions pipelineOptions) k = get pipelineOptions k.
Proof.
  intros Hk. unfold internalPipelineOptions. rewrite get_assign.
  by rewrite lookup_singleton_ne.
Qed.

(** C10: when the caller's options carry a [userAgentOptions] object, the
    constructor leaves the options, and with them that object and its
    prefix, exactly as supplied, and hands the same [userAgentOptions] to
    the pipeline factory; when they carry none, it installs
    [{ userAgentPrefix: "azsdk-js-keyvault-secrets/" + SDK_VERSION }] and
    touches no other option. *)
Theorem user_agent_options_as_supplied
    (vaultUrl credential : JsVal) (pipelineOptions : gmap string JsVal) :
  let supplied := get pipelineOptions "userAgentOptions" in
  let after := fst (construct vaultUrl credential (Some pipelineOptions)) in
  (truthy supplied = true →
     after = pipelineOptions
     ∧ get (internalPipelineOptions after) "userAgentOptions" = supplied)
  ∧ (truthy supplied = false →
     get after "userAgentOptions"
       = VObj {[ "userAgentPrefix" := VStr ("azsdk-js-keyvault-secrets/" +:+ SDK_VERSION) ]}
     ∧ get (internalPipelineOptions after) "userAgentOptions"
       = VObj {[ "userAgentPrefix" := VStr ("azsdk-js-keyvault-secrets/" +:+ SDK_VERSION) ]}
     ∧ ∀ k : string, k ≠ "userAgentOptions" → after !! k = pipelineOptions !! k).
Proof.
  cbv zeta. unfold SecretClient_new. simpl fst. split; intros H.
  - rewrite set_user_agent_supplied by done. split; [done|].
    by apply internal_options_keep.
  - rewrite set_user_agent_omitted by done. unfold libInfo. split_and!.
    + apply get_insert_eq.
    + rewrite internal_options_keep by done. apply get_insert_eq.
    + intros k Hk. by rewrite lookup_insert_ne.
Qed.

End SecretClientFacts.

(** A caller-chosen prefix stays as it is: no library name is appended. *)
Example caller_prefix_kept :
  fst (Clients.SecretClient_new "4.0.0" Samples.isTokenCredential Samples.any_policy
         Samples.any_policy Samples.any_pipeline Samples.any_client
         Samples.vault Samples.token_credential (Some Samples.options_with_prefix))
  = Samples.options_with_prefix.
Proof. reflexivity. Qed.


Section ArmClientFacts.
Import Js ApiVersionPolicy Clients.
Context {R : Type}.
Variable ServiceClient_new : OptionsWithDefaults R → Exn + list (Policy R).
Variable bearerTokenAuthenticationPolicy : option JsVal → JsVal → Policy R.

Abbreviation workloads := (WorkloadsClient_new ServiceClient_new bearerTokenAuthenticationPolicy).
Abbreviation paloalto :=
  (PaloAltoNetworksCloudngfw_new ServiceClient_new bearerTokenAuthenticationPolicy).

(** A client built with a configured version ends its pipeline with the
    custom api-version policy. *)
Lemma workloads_configured_version credentials subscriptionId options v c :
  apiVersion options = Some v → v ≠ "" →
  workloads credentials subscriptionId (Some options) = inr c →
  arm_apiVersion c = v
  ∧ ∃ pipeline,
      arm_pipeline c
      = pipeline ++ [mkPolicy "CustomApiVersionPolicy" (Workloads.sendRequest v)].
Proof.
  intros Hv Hne. unfold WorkloadsClient_new.
  destruct (defined credentials); simpl; [|done].
  destruct (defined subscriptionId); simpl; [|done].
  match goal with |- context [ServiceClient_new ?o] => destruct (ServiceClient_new o) as [e|p] end;
    [done|].
  intros [= <-]. simpl.
  assert (Hv' : ∀ o : ClientOptionalParams R,
             apiVersion
               match credentialScopes options with
               | Some v0 =>
                   if truthy v0 then options
                   else mkParams (userAgentPrefix options)
                          (Some (VArr [VStr "https://management.azure.com/.default"]))
                          (endpoint options) (baseUri options) (host options)
                          (apiVersion options) (opt_pipeline options)
               | None =>
                   mkParams (userAgentPrefix options)
                     (Some (VArr [VStr "https://management.azure.com/.default"]))
                     (endpoint options) (baseUri options) (host options)
                     (apiVersion options) (opt_pipeline options)
               end = Some v).
  { intros _. destruct (credentialScopes options) as [x|]; [destruct (truthy x)|]; done. }
  rewrite (Hv' options). unfold or_default.
  destruct (String.eqb_spec v ""); [done|]. split; [done|].
  rewrite addCustomApiVersionPolicy_configured by done. eauto.
Qed.

Lemma paloalto_configured_version credentials arg options v c :
  apiVersion options = Some v → v ≠ "" →
  paloalto credentials (ArgOptions options) arg = inr c →
  arm_apiVersion c = v
  ∧ ∃ pipeline,
      arm_pipeline c
      = pipeline ++ [mkPolicy "CustomApiVersionPolicy" (PaloAlto.sendRequest v)].
Proof.
  intros Hv Hne. unfold PaloAltoNetworksCloudngfw_new.
  destruct (defined credentials); simpl; [|done].
  match goal with |- context [ServiceClient_new ?o] => destruct (ServiceClient_new o) as [e|p] end;
    [done|].
  intros [= <-]. simpl. rewrite Hv. unfold or_default.
  destruct (String.eqb_spec v ""); [done|]. split; [done|].
  rewrite addCustomApiVersionPolicy_configured by done. eauto.
Qed.

(** Without a configured version no policy is added. *)
Lemma no_version_no_policy (send : string → PipelineRequest → (PipelineRequest → R) → R)
    (pipeline : list (Policy R)) :
  addCustomApiVersionPolicy send None pipeline = pipeline
  ∧ addCustomApiVersionPolicy send (Some "") pipeline = pipeline.
Proof. split; reflexivity. Qed.

End ArmClientFacts.


(** ** Pollers *)

Section PollerFacts.
Import Js Poller.
Context {W : Type}.
Variable initiate : Kind → string → W → option Exn * W.
Variable probe : Kind → string → W → Probe * W.

Abbreviation poll1 := (poll initiate probe).
Abbreviation pollN := (polls initiate probe).

(** One poll: the status does not move backwards, the resource name
    stays, and at most one round trip is made. *)
Lemma poll_step k st w :
  let '(st1, _, _, trips) := poll1 k st w in
  rank (status st) ≤ rank (status st1)
  ∧ resourceName st1 = resourceName st
  ∧ List.length trips ≤ 1.
Proof.
  unfold poll. destruct st as [n []]; simpl.
  - destruct (initiate k n w) as [[e|] w1]; simpl; auto.
  - destruct (probe k n w) as [[| |e] w1]; simpl; auto.
  - auto.
  - auto.
Qed.

(** A terminal poller does not poll. *)
Lemma poll_terminal k st w :
  terminal (status st) = true → poll1 k st w = (st, None, w, []).
Proof. unfold poll. by destruct st as [n []]. Qed.

Lemma polls_terminal n k st w :
  terminal (status st) = true → pollN n k st w = (st, w, []).
Proof.
  intros Ht. induction n as [|n IH]; [done|].
  simpl. by rewrite (poll_terminal k st w Ht), IH.
Qed.

Lemma polls_rank n k st w :
  rank (status st) ≤ rank (status (pollN n k st w).1.1).
Proof.
  revert st w. induction n as [|n IH]; intros st w; [done|]. simpl.
  pose proof (poll_step k st w) as Hs.
  destruct (poll1 k st w) as [[[st1 e] w1] trips].
  specialize (IH st1 w1).
  destruct (pollN n k st1 w1) as [[st2 w2] trips2]. simpl in *. lia.
Qed.

Lemma polls_add n d k st w :
  pollN (n + d) k st w =
    (let '(st1, w1, trips1) := pollN n k st w in
     let '(st2, w2, trips2) := pollN d k st1 w1 in
     (st2, w2, trips1 ++ trips2)).
Proof.
  revert st w. induction n as [|n IH]; intros st w; simpl.
  - by destruct (pollN d k st w) as [[st2 w2] trips2].
  - destruct (poll1 k st w) as [[[st1 e] w1] trips]. rewrite IH.
    destruct (pollN n k st1 w1) as [[st2 w2] trips2].
    destruct (pollN d k st2 w2) as [[st3 w3] trips3]. by rewrite app_assoc.
Qed.

(** C9: along any run of polls of a delete or recover poller the status
    only moves forward through
    [NotStarted → InProgress → {Succeeded, Failed}]; once it is terminal
    after [n] polls, any [d] further polls make no round trip and leave
    the status (hence the terminal value reached) as it is. *)
Theorem poller_status_monotone (k : Kind) (st : PollerState) (w : W) (n d : nat) :
  let '(st_n, w_n, trips_n) := pollN n k st w in
  let '(st_m, w_m, trips_m) := pollN (n + d) k st w in
  rank (status st_n) ≤ rank (status st_m)
  ∧ (terminal (status st_n) = true →
     st_m = st_n ∧ w_m = w_n ∧ trips_m = trips_n).
Proof.
  rewrite polls_add. destruct (pollN n k st w) as [[st1 w1] trips1].
  pose proof (polls_rank d k st1 w1) as Hr.
  pose proof (polls_terminal d k st1 w1) as Ht.
  destruct (pollN d k st1 w1) as [[st2 w2] trips2]. simpl in *.
  split; [done|]. intros Hterm. specialize (Ht Hterm). simplify_eq.
  by rewrite app_nil_r.
Qed.

(** [beginDeleteSecret] and [beginRecoverDeletedSecret] return the poller
    after its first poll. *)
Lemma begin_is_first_poll k name w :
  begin initiate probe k name None w = poll1 k (mkPoller name NotStarted) w.
Proof. reflexivity. Qed.

End PollerFacts.

(** * Further properties *)

(** ** The api-version policy: pieces, items and repeated application *)

Section PolicyMore.
Import JsString ApiVersionPolicy.
Implicit Types (s a b v item : string) (c sep : ascii) (l : list string).

(** No piece of a split holds the separator. *)
Lemma split_pieces sep s : Forall (λ x, occurs sep x = false) (split sep s).
Proof.
  induction s as [|c r IH]; simpl; [by repeat constructor|].
  destruct (Ascii.eqb c sep) eqn:Hc; [by constructor|].
  destruct (split sep r) as [|h t]; [by repeat constructor; simpl; rewrite Hc|].
  inversion IH as [|? ? Hh Ht]; subst. constructor; [|done]. simpl. by rewrite Hc.
Qed.

(** A piece of a string free of [c] is free of [c]. *)
Lemma split_pieces_free c sep s :
  occurs c s = false → Forall (λ x, occurs c x = false) (split sep s).
Proof.
  induction s as [|d r IH]; simpl; [by repeat constructor|].
  intros [Hd Hr]%orb_false_elim. specialize (IH Hr).
  destruct (Ascii.eqb d sep); [by constructor|].
  destruct (split sep r) as [|h t]; [by repeat constructor; simpl; rewrite Hd|].
  inversion IH as [|? ? Hh Ht]; subst. constructor; [|done]. simpl. by rewrite Hd, Hh.
Qed.

Lemma no_line_terminator_app a b :
  no_line_terminator (a +:+ b) = no_line_terminator a && no_line_terminator b.
Proof. induction a as [|c r IH]; simpl; [done|]. by rewrite IH, andb_assoc. Qed.

(** The match of [/(?<==).*$/] splits the string in two, and the matched
    part has no line terminator. *)
Lemma match_after_eq_sound prev s pre m :
  match_after_eq prev s = Some (pre, m) →
  s = pre +:+ m ∧ no_line_terminator m = true.
Proof.
  revert prev pre. induction s as [|c r IH]; intros prev pre;
    rewrite match_after_eq_unfold.
  - destruct (prev && no_line_terminator "") eqn:E; [|done].
    intros [= <- <-]. done.
  - destruct (prev && no_line_terminator (String c r)) eqn:E.
    + intros [= <- <-]. by apply andb_prop in E as [_ ?].
    + destruct (match_after_eq (Ascii.eqb c "="%char) r) as [[pre' m']|] eqn:Hr; [|done].
      intros [= <- <-]. destruct (IH _ _ Hr) as [-> ?]. done.
Qed.

(** Without [=] there is no match. *)
Lemma match_after_eq_none s :
  occurs "="%char s = false → match_after_eq false s = None.
Proof.
  induction s as [|c r IH]; [done|]. simpl occurs.
  intros [Hc Hr]%orb_false_elim. rewrite match_after_eq_unfold. simpl.
  by rewrite Hc, (IH Hr).
Qed.

(** Replacing the match by a text without line terminator moves the
    match nowhere: the same prefix is found again. *)
Lemma match_after_eq_again prev s pre m v :
  match_after_eq prev s = Some (pre, m) →
  no_line_terminator v = true →
  match_after_eq prev (pre +:+ v) = Some (pre, v).
Proof.
  intros Hm Hv. revert prev pre Hm. induction s as [|c r IH]; intros prev pre;
    rewrite match_after_eq_unfold.
  - destruct (prev && no_line_terminator "") eqn:E; [|done].
    intros [= <- <-]. change (EmptyString +:+ v) with v.
    rewrite match_after_eq_unfold.
    apply andb_prop in E as [-> _]. by rewrite Hv.
  - destruct (prev && no_line_terminator (String c r)) eqn:E.
    + intros [= <- <-]. change (EmptyString +:+ v) with v.
      rewrite match_after_eq_unfold.
      apply andb_prop in E as [-> _]. by rewrite Hv.
    + destruct (match_after_eq (Ascii.eqb c "="%char) r) as [[pre' m']|] eqn:Hr; [|done].
      intros [= <- <-]. destruct (match_after_eq_sound _ _ _ _ Hr) as [-> Hm'].
      change (String c pre' +:+ v) with (String c (pre' +:+ v)).
      rewrite match_after_eq_unfold.
      assert (prev && no_line_terminator (String c (pre' +:+ v)) = false) as ->.
      { destruct prev; [|done].
        change (String c (pre' +:+ m')) with (String c pre' +:+ m') in E.
        change (String c (pre' +:+ v)) with (String c pre' +:+ v).
        rewrite andb_true_l, no_line_terminator_app in *.
        rewrite Hm', andb_true_r in E. by rewrite E. }
      by rewrite (IH _ _ Hr).
Qed.

End PolicyMore.

Section PolicyTheorems.
Import JsString ApiVersionPolicy.
Implicit Types (s a b v item u : string) (l : list string).

Lemma with_url_same (request : PipelineRequest) : with_url request (url request) = request.
Proof. by destruct request. Qed.

(** Applying the map twice changes nothing more, as soon as the mapped
    items stay free of [?] and [&] and are fixed by the map. *)
Lemma rewrite_url_twice f u :
  (∀ x, occurs "?"%char x = false → occurs "&"%char x = false →
        occurs "?"%char (f x) = false ∧ occurs "&"%char (f x) = false ∧ f (f x) = f x) →
  rewrite_url f (rewrite_url f u) = rewrite_url f u.
Proof.
  intros Hf. unfold rewrite_url at 2 3.
  pose proof (split_pieces "?"%char u) as Hp.
  destruct (split "?"%char u) as [|p0 [|p1 rest]] eqn:E.
  - by rewrite (rewrite_url_without_query f u) by (by rewrite E in *; apply split_nonempty in E).
  - unfold rewrite_url. by rewrite E.
  - inversion Hp as [|? ? Hp0 Hp']; subst. inversion Hp' as [|? ? Hp1 _]; subst.
    pose proof (split_pieces "&"%char p1) as Ha.
    pose proof (split_pieces_free "?"%char "&"%char p1 Hp1) as Hq.
    pose proof (split_nonempty "&"%char p1) as Hne.
    set (items := split "&"%char p1) in *.
    assert (Hall : Forall (λ x, occurs "?"%char (f x) = false
                             ∧ occurs "&"%char (f x) = false ∧ f (f x) = f x) items).
    { clearbody items. clear -Ha Hq Hf.
      induction items as [|x l IH]; constructor.
      - inversion Ha; inversion Hq; subst. by apply Hf.
      - inversion Ha; inversion Hq; subst. by apply IH. }
    rewrite rewrite_url_single_mark.
    + do 3 f_equal. clearbody items. clear -Hall.
      induction Hall as [|x l (_ & _ & Hx) _ IH]; simpl; [done|]. by rewrite Hx, IH.
    + done.
    + by destruct items.
    + apply Forall_map. eapply Forall_impl; [exact Hall|]. naive_solver.
    + apply Forall_map. eapply Forall_impl; [exact Hall|]. naive_solver.
Qed.

Lemma paloalto_item_stable v x :
  occurs "?"%char v = false → occurs "&"%char v = false →
  occurs "?"%char x = false → occurs "&"%char x = false →
  occurs "?"%char (PaloAlto.map_item v x) = false
  ∧ occurs "&"%char (PaloAlto.map_item v x) = false
  ∧ PaloAlto.map_item v (PaloAlto.map_item v x) = PaloAlto.map_item v x.
Proof.
  intros Hq Ha Hxq Hxa.
  assert (PaloAlto.map_item v x
          = if includes "api-version" x then "api-version=" +:+ v else x) as -> by done.
  destruct (includes "api-version" x) eqn:Hi.
  - rewrite !occurs_app, Hq, Ha. split_and!; [done..|]. apply paloalto_item.
  - split_and!; [done..|]. unfold PaloAlto.map_item. by rewrite Hi.
Qed.

Lemma workloads_item_stable v x :
  occurs "?"%char v = false → occurs "&"%char v = false →
  occurs "$"%char v = false → no_line_terminator v = true →
  occurs "?"%char x = false → occurs "&"%char x = false →
  occurs "?"%char (Workloads.map_item v x) = false
  ∧ occurs "&"%char (Workloads.map_item v x) = false
  ∧ Workloads.map_item v (Workloads.map_item v x) = Workloads.map_item v x.
Proof.
  intros Hq Ha Hd Hl Hxq Hxa.
  assert (Workloads.map_item v x
          = if includes "api-version" x then replace_after_eq x v else x) as -> by done.
  destruct (includes "api-version" x) eqn:Hi.
  - destruct (match_after_eq false x) as [[pre m]|] eqn:Hm.
    + assert (replace_after_eq x v = pre +:+ v) as ->.
      { unfold replace_after_eq. by rewrite Hm, expand_plain. }
      destruct (match_after_eq_sound _ _ _ _ Hm) as [-> _].
      rewrite occurs_app in Hxq, Hxa.
      apply orb_false_elim in Hxq as [Hpq _]. apply orb_false_elim in Hxa as [Hpa _].
      rewrite !occurs_app, Hpq, Hpa, Hq, Ha.
      split_and!; [done..|]. unfold Workloads.map_item, replace_after_eq.
      rewrite (match_after_eq_again _ _ _ _ v Hm Hl), expand_plain by done.
      by destruct (includes "api-version" (pre +:+ v)).
    + assert (replace_after_eq x v = x) as ->.
      { unfold replace_after_eq. by rewrite Hm. }
      split_and!; [done..|]. unfold Workloads.map_item, replace_after_eq.
      by rewrite Hi, Hm.
  - split_and!; [done..|]. unfold Workloads.map_item. by rewrite Hi.
Qed.

End PolicyTheorems.

(** X1: a request whose URL has no question mark is forwarded by both
    policies exactly as it came. *)
Theorem url_without_query_untouched
    (R : Type) (next : ApiVersionPolicy.PipelineRequest → R) (v : string)
    (request : ApiVersionPolicy.PipelineRequest) :
  JsString.occurs "?"%char (ApiVersionPolicy.url request) = false →
  ApiVersionPolicy.Workloads.sendRequest v request next = next request
  ∧ ApiVersionPolicy.PaloAlto.sendRequest v request next = next request.
Proof.
  intros H. unfold ApiVersionPolicy.Workloads.sendRequest, ApiVersionPolicy.PaloAlto.sendRequest.
  rewrite !rewrite_url_without_query by (by apply split_single).
  by rewrite with_url_same.
Qed.

Lemma url_without_query_untouched_witness :
  ApiVersionPolicy.Workloads.sendRequest "2021-12-01-preview"
    (ApiVersionPolicy.mkRequest "https://management.azure.com/providers/Microsoft.Workloads/operations"
       "GET" None) id
  = ApiVersionPolicy.mkRequest "https://management.azure.com/providers/Microsoft.Workloads/operations"
      "GET" None.
Proof.
  exact (proj1 (url_without_query_untouched _ id "2021-12-01-preview"
                  (ApiVersionPolicy.mkRequest
                     "https://management.azure.com/providers/Microsoft.Workloads/operations"
                     "GET" None) eq_refl)).
Defined.

(** X2 at work: a version stamped between two other parameters. *)
Lemma api_version_rewritten_witness :
  ApiVersionPolicy.PaloAlto.sendRequest "2022-08-29"
    (ApiVersionPolicy.mkRequest
       "https://management.azure.com/firewalls?$top=5&api-version=2020-01-01&$skip=1" "GET" None) id
  = ApiVersionPolicy.mkRequest
      "https://management.azure.com/firewalls?$top=5&api-version=2022-08-29&$skip=1" "GET" None.
Proof.
  exact (proj2 (api_version_rewritten id "2022-08-29" "https://management.azure.com/firewalls"
                  ["$top=5"] "2020-01-01" ["$skip=1"] "GET" None eq_refl
                  ltac:(repeat constructor) eq_refl eq_refl eq_refl eq_refl)).
Defined.

(** X3: running either policy again on the request it forwards (as a
    retry does) forwards the same request, for a configured version without
    [?], [&], [$] and line terminator. *)
Theorem policy_idempotent
    (R : Type) (next : ApiVersionPolicy.PipelineRequest → R) (v : string)
    (request : ApiVersionPolicy.PipelineRequest) :
  JsString.occurs "?"%char v = false → JsString.occurs "&"%char v = false →
  JsString.occurs "$"%char v = false → JsString.no_line_terminator v = true →
  ApiVersionPolicy.Workloads.sendRequest v request
    (λ forwarded, ApiVersionPolicy.Workloads.sendRequest v forwarded next)
  = ApiVersionPolicy.Workloads.sendRequest v request next
  ∧ ApiVersionPolicy.PaloAlto.sendRequest v request
      (λ forwarded, ApiVersionPolicy.PaloAlto.sendRequest v forwarded next)
    = ApiVersionPolicy.PaloAlto.sendRequest v request next.
Proof.
  intros Hq Ha Hd Hl.
  unfold ApiVersionPolicy.Workloads.sendRequest, ApiVersionPolicy.PaloAlto.sendRequest.
  destruct request as [u m b]. unfold ApiVersionPolicy.with_url. simpl. split; do 2 f_equal.
  - apply rewrite_url_twice. intros x Hx1 Hx2. by apply workloads_item_stable.
  - apply rewrite_url_twice. intros x Hx1 Hx2. by apply paloalto_item_stable.
Qed.

Lemma policy_idempotent_witness :
  ApiVersionPolicy.Workloads.sendRequest "2021-12-01-preview"
    (ApiVersionPolicy.mkRequest Samples.url_with_two_marks "GET" None)
    (λ forwarded, ApiVersionPolicy.Workloads.sendRequest "2021-12-01-preview" forwarded id)
  = ApiVersionPolicy.Workloads.sendRequest "2021-12-01-preview"
      (ApiVersionPolicy.mkRequest Samples.url_with_two_marks "GET" None) id.
Proof.
  exact (proj1 (policy_idempotent _ id "2021-12-01-preview"
                  (ApiVersionPolicy.mkRequest Samples.url_with_two_marks "GET" None)
                  eq_refl eq_refl eq_refl eq_refl)).
Defined.

(** X4: in an item [name=value] that mentions api-version anywhere, the
    [WorkloadsClient] policy keeps the name and puts the configured version
    in place of the value (no [=] in the name, no line terminator in the
    value, no [$] in the version). *)
Theorem workloads_replaces_value (v name value : string) :
  JsString.occurs "="%char name = false →
  JsString.no_line_terminator value = true →
  JsString.occurs "$"%char v = false →
  JsString.includes "api-version" (name +:+ String "="%char value) = true →
  ApiVersionPolicy.Workloads.map_item v (name +:+ String "="%char value)
  = name +:+ String "="%char v.
Proof.
  intros Hn Hl Hd Hi. unfold ApiVersionPolicy.Workloads.map_item, JsString.replace_after_eq.
  rewrite Hi, (match_after_eq_item name value Hn Hl), expand_plain by done.
  clear. induction name as [|c r IH]; [done|].
  change ((String c r +:+ String "="%char "") +:+ v)
    with (String c ((r +:+ String "="%char "") +:+ v)).
  by rewrite IH.
Qed.

Lemma workloads_replaces_value_witness :
  ApiVersionPolicy.Workloads.map_item "2021-12-01-preview" "returnUrl=/docs/api-version/latest"
  = "returnUrl=2021-12-01-preview".
Proof.
  exact (workloads_replaces_value "2021-12-01-preview" "returnUrl" "/docs/api-version/latest"
           eq_refl eq_refl eq_refl eq_refl).
Defined.

(** X5: the [WorkloadsClient] policy leaves an item without [=] as it is,
    even the bare item [api-version]. *)
Theorem workloads_keeps_valueless_item (v item : string) :
  JsString.occurs "="%char item = false →
  ApiVersionPolicy.Workloads.map_item v item = item.
Proof.
  intros H. unfold ApiVersionPolicy.Workloads.map_item, JsString.replace_after_eq.
  rewrite (match_after_eq_none item H). by destruct (JsString.includes _ _).
Qed.

Lemma workloads_keeps_valueless_item_witness :
  ApiVersionPolicy.Workloads.map_item "2021-12-01-preview" "api-version" = "api-version".
Proof. exact (workloads_keeps_valueless_item "2021-12-01-preview" "api-version" eq_refl). Defined.

(** ** The generated ARM clients: what the constructors leave behind *)

Section ArmMore.
Import Js ApiVersionPolicy Clients PipelineFacts.
Context {R : Type}.
Implicit Types (pipeline : list (Policy R)) (p : Policy R).




Lemma or_default_nonempty s d : d ≠ "" → or_default s d ≠ "".
Proof.
  intros Hd. unfold or_default. destruct s as [v|]; [|done].
  by destruct (String.eqb_spec v "").
Qed.

Lemma has_bearer_count pipeline : has_bearer pipeline = false → bearer_count pipeline = 0.
Proof.
  unfold has_bearer, bearer_count. induction pipeline as [|p l IH]; [done|]. simpl.
  intros [Hp Hl]%orb_false_elim. unfold is_bearer at 1. rewrite Hp. by apply IH.
Qed.

End ArmMore.

(** X6: a client of either kind built with a non-empty [apiVersion] among
    the options it uses reports that version and has the custom
    api-version policy stamping that version in its pipeline. The options
    used by [PaloAltoNetworksCloudngfw] are its second argument when that
    is an object, and its third argument otherwise; those of
    [WorkloadsClient] are its third argument. *)
Theorem configured_version_is_stamped
    (R : Type) (super : Clients.OptionsWithDefaults R → Js.Exn + list (ApiVersionPolicy.Policy R))
    (bearer : option Js.JsVal → Js.JsVal → ApiVersionPolicy.Policy R)
    (credentials subscriptionId : Js.JsVal)
    (arg : Clients.SubscriptionIdOrOptions)
    (options : option (Clients.ClientOptionalParams R)) (v : string) (c : Clients.ArmClient R) :
  v ≠ "" →
  (Clients.apiVersion (default Clients.no_params options) = Some v →
   Clients.WorkloadsClient_new super bearer credentials subscriptionId options = inr c →
   Clients.arm_apiVersion c = v
   ∧ ApiVersionPolicy.mkPolicy "CustomApiVersionPolicy" (ApiVersionPolicy.Workloads.sendRequest v)
     ∈ Clients.arm_pipeline c)
  ∧ (Clients.apiVersion
       match arg with
       | Clients.ArgOptions o => o
       | _ => default Clients.no_params options
       end = Some v →
     Clients.PaloAltoNetworksCloudngfw_new super bearer credentials arg options = inr c →
     Clients.arm_apiVersion c = v
     ∧ ApiVersionPolicy.mkPolicy "CustomApiVersionPolicy" (ApiVersionPolicy.PaloAlto.sendRequest v)
       ∈ Clients.arm_pipeline c).
Proof.
  intros Hne. split; intros Hv Hc.
  - destruct options as [o|]; [|done]. simpl in Hv.
    destruct (workloads_configured_version super bearer _ _ _ _ _ Hv Hne Hc)
      as [Hversion [pipeline ->]].
    split; [done|]. apply elem_of_app. right. apply list_elem_of_here.
  - unfold Clients.PaloAltoNetworksCloudngfw_new in Hc.
    destruct (Js.defined credentials); simpl in Hc; [|done].
    match type of Hc with context [super ?o] => destruct (super o) as [e|p] end; [done|].
    injection Hc as <-. simpl. rewrite Hv. unfold Clients.or_default.
    destruct (String.eqb_spec v ""); [done|]. split; [done|].
    rewrite addCustomApiVersionPolicy_configured by done.
    apply elem_of_app. right. apply list_elem_of_here.
Qed.

(** X7: whatever the options, a constructed client of either kind has a
    non-empty [apiVersion] and [$host]: a missing or empty option falls back
    to the default of the client. *)
Theorem arm_client_never_unversioned
    (R : Type) (super : Clients.OptionsWithDefaults R → Js.Exn + list (ApiVersionPolicy.Policy R))
    (bearer : option Js.JsVal → Js.JsVal → ApiVersionPolicy.Policy R)
    (credentials subscriptionId : Js.JsVal) (arg : Clients.SubscriptionIdOrOptions)
    (options : option (Clients.ClientOptionalParams R)) (c : Clients.ArmClient R) :
  Clients.WorkloadsClient_new super bearer credentials subscriptionId options = inr c
  ∨ Clients.PaloAltoNetworksCloudngfw_new super bearer credentials arg options = inr c →
  Clients.arm_apiVersion c ≠ "" ∧ Clients.arm_host c ≠ "".
Proof.
  intros [Hc|Hc].
  - unfold Clients.WorkloadsClient_new in Hc.
    destruct (Js.defined credentials); simpl in Hc; [|done].
    destruct (Js.defined subscriptionId); simpl in Hc; [|done].
    match type of Hc with context [super ?o] => destruct (super o) as [e|p] end; [done|].
    injection Hc as <-. simpl. split; by apply or_default_nonempty.
  - unfold Clients.PaloAltoNetworksCloudngfw_new in Hc.
    destruct (Js.defined credentials); simpl in Hc; [|done].
    match type of Hc with context [super ?o] => destruct (super o) as [e|p] end; [done|].
    injection Hc as <-. simpl. split; by apply or_default_nonempty.
Qed.

(** X6 at work: the overload with a subscription id, the version coming
    from the third argument. *)
Lemma configured_version_is_stamped_witness :
  ∃ c,
    Clients.PaloAltoNetworksCloudngfw_new PipelineFacts.sample_super PipelineFacts.sample_bearer
      Samples.token_credential (Clients.ArgString "sub-1")
      (Some PipelineFacts.versioned_options) = inr c
    ∧ Clients.arm_apiVersion c = "2021-12-01-preview"
    ∧ ApiVersionPolicy.mkPolicy "CustomApiVersionPolicy"
        (ApiVersionPolicy.PaloAlto.sendRequest "2021-12-01-preview")
      ∈ Clients.arm_pipeline c.
Proof.
  destruct (Clients.PaloAltoNetworksCloudngfw_new PipelineFacts.sample_super
              PipelineFacts.sample_bearer Samples.token_credential (Clients.ArgString "sub-1")
              (Some PipelineFacts.versioned_options))
    as [e|c] eqn:Hc; [vm_compute in Hc; discriminate|].
  destruct (proj2 (configured_version_is_stamped _ PipelineFacts.sample_super
                     PipelineFacts.sample_bearer Samples.token_credential (Js.VStr "sub-1")
                     (Clients.ArgString "sub-1") (Some PipelineFacts.versioned_options)
                     "2021-12-01-preview" c ltac:(discriminate))
              eq_refl Hc) as [Hv Hp].
  exists c. split; [reflexivity|]. split; [exact Hv|exact Hp].
Defined.

Lemma arm_client_never_unversioned_witness :
  ∃ c,
    Clients.PaloAltoNetworksCloudngfw_new PipelineFacts.sample_super PipelineFacts.sample_bearer
      Samples.token_credential (Clients.ArgString "sub-1") None = inr c
    ∧ Clients.arm_apiVersion c = "2022-08-29"
    ∧ Clients.arm_apiVersion c ≠ "" ∧ Clients.arm_host c ≠ "".
Proof.
  destruct (Clients.PaloAltoNetworksCloudngfw_new PipelineFacts.sample_super
              PipelineFacts.sample_bearer Samples.token_credential (Clients.ArgString "sub-1") None)
    as [e|c] eqn:Hc; [vm_compute in Hc; discriminate|].
  exists c. split; [reflexivity|].
  split; [vm_compute in Hc; injection Hc as <-; reflexivity|].
  exact (arm_client_never_unversioned _ PipelineFacts.sample_super PipelineFacts.sample_bearer
           Samples.token_credential (Js.VStr "sub-1") (Clients.ArgString "sub-1") None c
           (or_intror Hc)).
Defined.





(** ** Result shaping: when it returns and what it copies *)

Section ShapingMore.
Import Js Shaping Keys.
Variable parse : Parser.
Implicit Types (bundle props a o : gmap string JsVal) (k : string).

Lemma get_prop_ok v k : nullish v = false → get_prop v k = inr (read v k).
Proof. by destruct v. Qed.

Lemma get_prop_throws v k : nullish v = true → ∃ e, get_prop v k = inl e.
Proof. destruct v; try done; simpl; eauto. Qed.

Lemma get_drop_if attributes k k' props :
  k ≠ k' → get (drop_if attributes k props) k' = get props k'.
Proof.
  intros Hne. unfold drop_if. destruct (truthy _); [|done]. by apply get_delete_ne.
Qed.

(** The conditional deletions touch four names only. *)
Lemma get_drop_renamed attributes props k :
  k ≠ "vaultUrl" → k ≠ "expires" → k ≠ "created" → k ≠ "updated" →
  get (drop_renamed attributes props) k = get props k.
Proof.
  intros. unfold drop_renamed. destruct (truthy attributes); [|done].
  by rewrite !get_drop_if.
Qed.

Lemma get_rename_deleted bundle props k :
  k ≠ "deletedOn" → k ≠ "deletedDate" →
  get (rename_deleted bundle props) k = get props k.
Proof.
  intros. unfold rename_deleted. destruct (truthy _); [|done].
  rewrite get_delete_ne by done. by rewrite get_insert_ne.
Qed.

Lemma handled_false k :
  handled k = false →
  k ≠ "vaultUrl" ∧ k ≠ "expiresOn" ∧ k ≠ "createdOn" ∧ k ≠ "updatedOn"
  ∧ k ≠ "expires" ∧ k ≠ "created" ∧ k ≠ "updated"
  ∧ k ≠ "deletedOn" ∧ k ≠ "deletedDate".
Proof.
  unfold handled, handled_names. simpl. intros H.
  repeat (apply orb_false_elim in H as [?%String.eqb_neq H]). done.
Qed.

Lemma has_key_false o k : has_key o k = false → o !! k = None.
Proof. unfold has_key. by destruct (o !! k). Qed.

(** The literal of the properties, read at a name none of the spread
    objects has. *)
Lemma get_literal_own bundle parsedId attributes e c u k :
  bundle !! k = None → parsedId !! k = None → spread attributes !! k = None →
  get (properties_literal bundle parsedId attributes e c u) k
  = get (<["updatedOn" := u]> (<["createdOn" := c]> (<["expiresOn" := e]>
           (<["vaultUrl" := get parsedId "vaultUrl"]> ∅)))) k.
Proof.
  intros Hb Hp Ha. unfold properties_literal.
  rewrite !get_assign, Ha, Hp, Hb. done.
Qed.

(** ... and at a name the literal itself does not set. *)
Lemma get_literal_spread bundle parsedId attributes e c u k :
  k ≠ "vaultUrl" → k ≠ "expiresOn" → k ≠ "createdOn" → k ≠ "updatedOn" →
  get (properties_literal bundle parsedId attributes e c u) k
  = match spread attributes !! k with
    | Some v => v
    | None => match parsedId !! k with
              | Some v => v
              | None => get bundle k
              end
    end.
Proof.
  intros. unfold properties_literal. rewrite !get_assign.
  destruct (spread attributes !! k); [done|]. destruct (parsedId !! k); [done|].
  unfold get at 2. destruct (bundle !! k) eqn:Hb; [by unfold get; rewrite Hb|].
  rewrite !get_insert_ne by done. rewrite get_empty. unfold get. by rewrite Hb.
Qed.

End ShapingMore.

(** X10: shaping returns a secret exactly when the identifier parses and
    the bundle's [attributes] are neither [undefined] nor [null]; in every
    other case it throws. *)
Theorem shaping_returns_iff (parse : Shaping.Parser) (bundle : gmap string Js.JsVal) :
  (∃ secret, snd (Shaping.getSecretFromSecretBundle parse bundle) = inr secret)
  ↔ (∃ parsedId, parse "secrets" (Js.get bundle "id") = inr parsedId)
    ∧ Js.nullish (Js.get bundle "attributes") = false.
Proof.
  unfold Shaping.getSecretFromSecretBundle.
  destruct (parse "secrets" (Js.get bundle "id")) as [e|p]; simpl.
  - split; [intros [? [=]]|intros [[? [=]] _]].
  - destruct (Js.nullish (Js.get bundle "attributes")) eqn:Hn.
    + destruct (get_prop_throws _ "expires" Hn) as [e ->].
      split; [intros [? [=]]|intros [_ [=]]].
    + rewrite (get_prop_ok _ "expires" Hn). split; eauto.
Qed.



(** X12: every field of the shaped properties whose name shaping does not
    treat specially is taken from the attributes when they have it, else
    from the parsed identifier, else from the bundle, which by then has
    lost its [attributes]: so the bundle's [value] and [id] are copied into
    the properties, and the attributes object itself is not. *)
Theorem properties_merge_order
    (parse : Shaping.Parser) (bundle bundle' parsedId : gmap string Js.JsVal)
    (secret : Shaping.KeyVaultSecret) (k : string) :
  parse "secrets" (Js.get bundle "id") = inr parsedId →
  Keys.handled k = false →
  Shaping.getSecretFromSecretBundle parse bundle = (bundle', inr secret) →
  Js.get (Shaping.properties secret) k
  = match Js.spread (Js.get bundle "attributes") !! k with
    | Some v => v
    | None => match parsedId !! k with
              | Some v => v
              | None => if String.eqb k "attributes" then Js.VUndef else Js.get bundle k
              end
    end.
Proof.
  intros Hparse Hk Hcall.
  destruct (shaped_result parse _ _ _ Hcall) as (p & e & Hp' & He & -> & ->).
  rewrite Hparse in Hp'. injection Hp' as <-.
  apply handled_false in Hk as (? & ? & ? & ? & ? & ? & ? & ? & ?).
  simpl. rewrite get_drop_renamed, get_rename_deleted, get_literal_spread by done.
  destruct (Js.spread (Js.get bundle "attributes") !! k); [done|].
  destruct (parsedId !! k); [done|].
  destruct (String.eqb_spec k "attributes") as [->|Hne].
  - apply get_delete_eq.
  - by apply get_delete_ne.
Qed.

Lemma properties_merge_order_witness :
  ∃ secret,
    snd (Shaping.getSecretFromSecretBundle Shaping.parseKeyvaultIdentifier Samples.bundle)
    = inr secret
    ∧ Js.get (Shaping.properties secret) "value" = Js.VStr "hunter2"
    ∧ Js.get (Shaping.properties secret) "attributes" = Js.VUndef
    ∧ Js.get (Shaping.properties secret) "enabled" = Js.VBool true.
Proof.
  destruct (Shaping.getSecretFromSecretBundle Shaping.parseKeyvaultIdentifier Samples.bundle)
    as [b' [e|secret]] eqn:Hcall; [vm_compute in Hcall; discriminate|].
  exists secret. split; [reflexivity|].
  pose proof (λ k Hk, properties_merge_order Shaping.parseKeyvaultIdentifier Samples.bundle b'
                        _ secret k ltac:(vm_compute; reflexivity) Hk Hcall) as H.
  split; [exact (H "value" eq_refl)|]. split; [exact (H "attributes" eq_refl)|].
  exact (H "enabled" eq_refl).
Defined.

(** X13 at work: the sample bundle, once shaped, cannot be shaped again. *)
Lemma shaping_twice_throws_witness :
  ∃ e, snd (Shaping.getSecretFromSecretBundle Shaping.parseKeyvaultIdentifier
              (fst (Shaping.getSecretFromSecretBundle Shaping.parseKeyvaultIdentifier
                      Samples.bundle))) = inl e.
Proof.
  exact (shaping_twice_throws Shaping.parseKeyvaultIdentifier Samples.bundle _
           ltac:(vm_compute; reflexivity)).
Defined.

(** ** Pagination: fetches, the cursor and errors *)

Section PagingMore.
Import Js Shaping Paging PagingLog.
Context {S : Type}.
Variable fetch : S → Request → (Exn + PageResponse) * S.
Variable parse : Parser.
Variable vaultUrl : JsVal.

Abbreviation next := (page_next fetch parse vaultUrl).
Abbreviation drain := (drain_pages fetch parse vaultUrl).

(** What one [next()] of a generator suspended in the loop does. *)
Lemma loop_step st s o st' s' log :
  pc st = InLoop →
  next st s = (o, st', s', log) →
  (log = [] ∧ o = Returned)
  ∨ ∃ x, log = [x]
         ∧ ex_site x = Continuation
         ∧ ex_request x = mkReq (gen_op st) (continuationToken (settings st)) (gen_options st)
         ∧ truthy (continuationToken (settings st)) = true
         ∧ match ex_result x with
           | inr resp =>
               continuationToken (settings st') = nextLink resp
               ∧ gen_op st' = gen_op st ∧ gen_options st' = gen_options st
               ∧ (∀ page, o = Yielded page → pc st' = InLoop)
           | inl e => o = Threw e
           end.
Proof.
  destruct st as [[] g op opts]; try done. intros _ H.
  step_cases; simplify_eq;
    first [ by left
          | right; eexists; split; [reflexivity|]; simpl; split_and!; done ].
Qed.

(** What one [next()] writes to the settings object. *)
Lemma next_settings st s o st' s' log :
  next st s = (o, st', s', log) →
  continuationToken (settings st') = last_link (continuationToken (settings st)) log
  ∧ maxPageSize (settings st') = maxPageSize (settings st).
Proof.
  intros H. destruct st as [[] g op opts]; step_cases; simplify_eq; done.
Qed.

(** A generator that yields is suspended in the loop. *)
Lemma yield_suspends st s page st' s' log :
  next st s = (Yielded page, st', s', log) → pc st' = InLoop.
Proof.
  intros H. destruct (next_pc _ _ _ _ _ _ _ _ _ H) as (_ & _ & [Hpc|[Hpc _]]); [|done].
  destruct st as [[] g op opts]; step_cases; simplify_eq; done.
Qed.

(** The fetches of an iteration resumed in the loop form a chain. *)
Lemma chained_drain n st s :
  pc st = InLoop →
  chained (gen_op st) (gen_options st) (continuationToken (settings st))
    (drain n st s).2.
Proof.
  revert st s. induction n as [|n IH]; intros st s Hpc; [done|]. simpl.
  destruct (next st s) as [[[o st1] s1] log1] eqn:Hnext.
  destruct (loop_step _ _ _ _ _ _ Hpc Hnext) as [[-> ->]|(x & -> & Hsite & Hreq & Ht & Hres)].
  - done.
  - destruct o as [page| |e].
    + destruct (drain n st1 s1) as [[[ps fin] s2] log2] eqn:Hd. simpl.
      split_and!; [done..|].
      destruct (ex_result x) as [e|resp]; [done|].
      destruct Hres as (Htok & Hop & Hopts & Hpc').
      specialize (IH st1 s1 (Hpc' page eq_refl)).
      by rewrite Hd, Hop, Hopts, Htok in IH.
    + simpl. split_and!; [done..|]. by destruct (ex_result x).
    + simpl. split_and!; [done..|]. by destruct (ex_result x).
Qed.


(** A first page without [value] is passed over: the iteration goes on
    as the loop would from its next link. *)
Lemma drain_valueless_first n st s resp s1 :
  pc st = AtStart →
  nullish (continuationToken (settings st)) = true →
  fetch s (mkReq (gen_op st) vaultUrl
             (assign {[ "maxresults" := maxPageSize (settings st) ]} (gen_options st)))
    = (inr resp, s1) →
  resp_value resp = None →
  drain (Datatypes.S n) st s =
    (let '(ps, fin, s', log) :=
       drain (Datatypes.S n)
         (resume_at st InLoop (mkSettings (nextLink resp) (maxPageSize (settings st)))) s1 in
     (ps, fin, s',
      mkExchange FirstPage
        (mkReq (gen_op st) vaultUrl
           (assign {[ "maxresults" := maxPageSize (settings st) ]} (gen_options st)))
        (inr resp) :: log)).
Proof.
  destruct st as [[] g op opts]; try done. simpl. intros _ Hn Hf Hv.
  unfold page_next at 1 2. simpl. rewrite Hn, Hf. unfold after_fetch. simpl.
  rewrite Hv.
  destruct (loop_next fetch parse _ s1) as [[[[page| |e] st2] s2] log2]; simpl; [|done..].
  by destruct (drain n st2 s2) as [[[ps fin] s3] log3].
Qed.

Lemma chained_start n st s :
  pc st = AtStart →
  nullish (continuationToken (settings st)) = true →
  begins_and_chains vaultUrl st (drain n st s).2.
Proof.
  intros Hpc Hn. destruct n as [|n]; [done|].
  destruct (fetch s (mkReq (gen_op st) vaultUrl
              (assign {[ "maxresults" := maxPageSize (settings st) ]} (gen_options st))))
    as [[e|resp] s1] eqn:Hf.
  - destruct st as [[] g op opts]; try done. simpl in *.
    unfold page_next. simpl. rewrite Hn, Hf. done.
  - destruct (resp_value resp) as [bundles|] eqn:Hv.
    + destruct st as [[] g op opts]; try done. simpl in *.
      unfold page_next. simpl. rewrite Hn, Hf. unfold after_fetch. simpl. rewrite Hv.
      destruct (shape_page parse op bundles) as [e|page]; simpl.
      * done.
      * pose proof (chained_drain n (resume_at (mkGen AtStart g op opts) InLoop
                       (mkSettings (nextLink resp) (maxPageSize g))) s1 eq_refl) as Hc.
        destruct (drain n _ s1) as [[[ps fin] s2] log2]. simpl in *. done.
    + rewrite (drain_valueless_first n st s resp s1 Hpc Hn Hf Hv).
      pose proof (chained_drain (Datatypes.S n) (resume_at st InLoop
                     (mkSettings (nextLink resp) (maxPageSize (settings st)))) s1 eq_refl) as Hc.
      destruct (drain (Datatypes.S n) _ s1) as [[[ps fin] s2] log2]. simpl in *. done.
Qed.

Lemma chained_resumed n st s :
  pc st = AtStart →
  nullish (continuationToken (settings st)) = false →
  chained (gen_op st) (gen_options st) (continuationToken (settings st)) (drain n st s).2.
Proof.
  intros Hpc Hn.
  assert (∀ s0, next st s0 = next (resume_at st InLoop (settings st)) s0) as Hsame.
  { intros s0. destruct st as [[] g op opts]; try done. simpl in *.
    unfold page_next. simpl. by rewrite Hn. }
  pose proof (chained_drain n (resume_at st InLoop (settings st)) s eq_refl) as Hc.
  destruct n as [|n]; [done|]. simpl in *. by rewrite Hsame.
Qed.

(** The options of the requests of a chain. *)
Lemma chained_options op options token log x :
  chained op options token log → x ∈ log → req_options (ex_request x) = options.
Proof.
  revert token. induction log as [|y rest IH]; intros token; simpl.
  - by intros _ ?%elem_of_nil.
  - intros (_ & Hreq & _ & Hrest) [->|Hx]%elem_of_cons.
    + by rewrite Hreq.
    + destruct (ex_result y) as [e|resp]; [|by eapply IH].
      subst rest. by apply elem_of_nil in Hx.
Qed.

(** The options of the requests of an iteration: those of the
    generator, under a default [maxresults] for the first page. *)
Lemma drain_request_options n st s x :
  pc st = AtStart →
  x ∈ (drain n st s).2 →
  req_options (ex_request x) = gen_options st
  ∨ req_options (ex_request x)
    = assign {[ "maxresults" := maxPageSize (settings st) ]} (gen_options st).
Proof.
  intros Hpc Hx. destruct (nullish (continuationToken (settings st))) eqn:Hn.
  - pose proof (chained_start n st s Hpc Hn) as Hc.
    destruct ((drain n st s).2) as [|y rest]; [by apply elem_of_nil in Hx|].
    destruct Hc as (_ & Hreq & Hrest). apply elem_of_cons in Hx as [->|Hx].
    + right. by rewrite Hreq.
    + left. destruct (ex_result y) as [e|resp].
      * subst rest. by apply elem_of_nil in Hx.
      * by eapply chained_options.
  - left. eapply chained_options; [|done]. by apply chained_resumed.
Qed.

(** A page is the pointwise shaping of its bundles. *)
Lemma shape_page_inr op bundles page :
  shape_page parse op bundles = inr page ↔
  Forall2 (λ b x, shape_item parse op b = inr x) bundles page.
Proof.
  split.
  - revert page. induction bundles as [|b rest IH]; intros page; simpl.
    + intros [= <-]. constructor.
    + destruct (shape_item parse op b) as [e|x] eqn:Hb; [done|].
      destruct (shape_page parse op rest) as [e|xs]; [done|].
      intros [= <-]. constructor; [done|]. by apply IH.
  - induction 1 as [|b x rest xs Hb _ IH]; simpl; [done|]. by rewrite Hb, IH.
Qed.

Lemma shape_page_inl op bundles e :
  shape_page parse op bundles = inl e ↔
  ∃ before b after page,
    bundles = before ++ b :: after
    ∧ shape_page parse op before = inr page
    ∧ shape_item parse op b = inl e.
Proof.
  split.
  - induction bundles as [|b rest IH]; simpl; [done|].
    destruct (shape_item parse op b) as [e0|x] eqn:Hb.
    + intros [= ->]. by exists [], b, rest, [].
    + destruct (shape_page parse op rest) as [e0|xs] eqn:Hr; [|done].
      intros [= ->]. destruct (IH eq_refl) as (before & b1 & after & page & -> & Hp & Hi).
      exists (b :: before), b1, after, (x :: page). simpl. by rewrite Hb, Hp.
  - intros (before & b & after & page & -> & Hp & Hi). revert page Hp.
    induction before as [|b0 before IH]; intros page Hp; simpl.
    + by rewrite Hi.
    + simpl in Hp. destruct (shape_item parse op b0); [done|].
      destruct (shape_page parse op before) eqn:Hbefore; [done|].
      by rewrite (IH _ eq_refl).
Qed.

End PagingMore.

(** X14: the requests of an iteration by page. Started without a
    continuation token, the generator first asks the vault URL, with the
    caller's options over a default [maxresults], the page size of the
    settings; every later request goes to the next link of the page
    received just before it, which is truthy, and carries the caller's
    options as they are, without that default; nothing is requested after
    a failed request. Started with a continuation token, it makes no
    first-page request and the chain starts at that token. *)
Theorem page_fetches_chain {S : Type}
    (fetch : S → Paging.Request → (Js.Exn + Paging.PageResponse) * S)
    (parse : Shaping.Parser) (vaultUrl : Js.JsVal)
    (c : Paging.Collection) (options : gmap string Js.JsVal)
    (g : Paging.PageSettings) (n : nat) (s : S) :
  let st := Paging.byPage c options g in
  let log := (Paging.drain_pages fetch parse vaultUrl n st s).2 in
  if Js.nullish (Paging.continuationToken g)
  then PagingLog.begins_and_chains vaultUrl st log
  else PagingLog.chained (Paging.gen_op st) options (Paging.continuationToken g) log.
Proof.
  intros st log.
  assert (Paging.pc st = Paging.AtStart) as Hpc by by destruct c.
  assert (Paging.settings st = g) as Hg by by destruct c.
  assert (Paging.gen_options st = options) as Ho by by destruct c.
  destruct (Js.nullish (Paging.continuationToken g)) eqn:Hn.
  - apply chained_start; [done|]. by rewrite Hg.
  - rewrite <- Ho, <- Hg. apply chained_resumed; [done|]. by rewrite Hg.
Qed.

(** X15: the settings object after a [next()]: its continuation token is the
    next link of the last page received during the call (unchanged when
    none was received), and its page size is never written. *)
Theorem settings_track_last_link {S : Type}
    (fetch : S → Paging.Request → (Js.Exn + Paging.PageResponse) * S)
    (parse : Shaping.Parser) (vaultUrl : Js.JsVal) (st : Paging.PageGen) (s : S) :
  let '(_, st', _, log) := Paging.page_next fetch parse vaultUrl st s in
  Paging.continuationToken (Paging.settings st')
    = PagingLog.last_link (Paging.continuationToken (Paging.settings st)) log
  ∧ Paging.maxPageSize (Paging.settings st') = Paging.maxPageSize (Paging.settings st).
Proof.
  destruct (Paging.page_next fetch parse vaultUrl st s) as [[[o st'] s'] log] eqn:H.
  exact (next_settings _ _ _ _ _ _ _ _ _ H).
Qed.

(** X16: one [next()] makes at most two requests, and at most one once the
    generator has yielded or was started with a token. It makes two only
    when the first page came without [value]; the second then goes to
    that page's next link. *)
Theorem fetches_per_call {S : Type}
    (fetch : S → Paging.Request → (Js.Exn + Paging.PageResponse) * S)
    (parse : Shaping.Parser) (vaultUrl : Js.JsVal) (st : Paging.PageGen) (s : S) :
  let '(_, _, _, log) := Paging.page_next fetch parse vaultUrl st s in
  List.length log ≤ match Paging.pc st with
                    | Paging.AtStart =>
                        if Js.nullish (Paging.continuationToken (Paging.settings st))
                        then 2 else 1
                    | Paging.InLoop => 1
                    | Paging.Finished => 0
                    end
  ∧ (1 < List.length log →
     ∃ x1 resp x2,
       log = [x1; x2]
       ∧ Paging.ex_site x1 = Paging.FirstPage
       ∧ Paging.ex_result x1 = inr resp
       ∧ Paging.resp_value resp = None
       ∧ Paging.ex_site x2 = Paging.Continuation
       ∧ Paging.req_target (Paging.ex_request x2) = Paging.nextLink resp).
Proof.
  destruct (Paging.page_next fetch parse vaultUrl st s) as [[[o st'] s'] log] eqn:H.
  destruct st as [[] g op opts]; step_cases; simplify_eq; simpl;
    (split; [lia|]); intros Hlen; try (simpl in Hlen; lia);
    eexists _, _, _; split_and!; try reflexivity; done.
Qed.

(** X17: resuming from the settings object. After a yield that left a token in
    the settings (one that is neither [undefined] nor [null]), a new page
    generator for the same operation and options, given that settings
    object, continues the listing exactly as the suspended generator
    would: same requests, same pages, same end. *)
Theorem settings_resume_iteration {S : Type}
    (fetch : S → Paging.Request → (Js.Exn + Paging.PageResponse) * S)
    (parse : Shaping.Parser) (vaultUrl : Js.JsVal)
    (st st' : Paging.PageGen) (s s' : S) page log :
  Paging.page_next fetch parse vaultUrl st s = (Paging.Yielded page, st', s', log) →
  Js.nullish (Paging.continuationToken (Paging.settings st')) = false →
  ∀ n s0,
    Paging.drain_pages fetch parse vaultUrl n
      (Paging.mkGen Paging.AtStart (Paging.settings st') (Paging.gen_op st)
         (Paging.gen_options st)) s0
    = Paging.drain_pages fetch parse vaultUrl n st' s0.
Proof.
  intros Hnext Hn n s0.
  destruct (next_pc _ _ _ _ _ _ _ _ _ Hnext) as (Hop & Hopts & _).
  pose proof (yield_suspends _ _ _ _ _ _ _ _ _ Hnext) as Hpc.
  destruct st' as [pc' g' op' opts']. simpl in *. subst.
  destruct n as [|n]; [done|]. simpl.
  unfold Paging.page_next at 1. simpl. by rewrite Hn.
Qed.


(** X19: errors. A request that fails makes the [next()] that sent it throw
    that very error, and it is the last request of the call. Conversely a
    [next()] throws only the error of its last request or, when that
    request was answered with a [value] array, the error raised while
    shaping the first bundle of the array that cannot be shaped. Either
    way the generator is over afterwards. *)
Theorem errors_propagate {S : Type}
    (fetch : S → Paging.Request → (Js.Exn + Paging.PageResponse) * S)
    (parse : Shaping.Parser) (vaultUrl : Js.JsVal)
    (st st' : Paging.PageGen) (s s' : S) o log :
  Paging.page_next fetch parse vaultUrl st s = (o, st', s', log) →
  (∀ x e, x ∈ log → Paging.ex_result x = inl e →
     o = Paging.Threw e ∧ last log = Some x)
  ∧ (∀ e, o = Paging.Threw e →
       Paging.is_over st' = true
       ∧ ∃ x, last log = Some x
           ∧ (Paging.ex_result x = inl e
              ∨ ∃ resp before b after page,
                  Paging.ex_result x = inr resp
                  ∧ Paging.resp_value resp = Some (before ++ b :: after)
                  ∧ Paging.shape_page parse (Paging.gen_op st) before = inr page
                  ∧ Paging.shape_item parse (Paging.gen_op st) b = inl e)).
Proof.
  intros Hnext. split.
  - intros x e Hx He.
    destruct st as [[] g op opts]; step_cases; simplify_eq;
      rewrite ?elem_of_cons, ?elem_of_nil in Hx;
      repeat match goal with
             | H : _ ∨ _ |- _ => destruct H as [H|H]
             | H : False |- _ => destruct H
             end;
      subst; simpl in *; by simplify_eq.
  - intros e ->. split.
    { by destruct (next_pc _ _ _ _ _ _ _ _ _ Hnext) as (_ & _ & [Hpc|[_ [? ?]]]);
        [unfold Paging.is_over; rewrite Hpc|]. }
    destruct st as [[] g op opts]; step_cases; simplify_eq;
      (eexists; split; [reflexivity|]; simpl);
      first [ by left
            | right;
              match goal with
              | H : Paging.shape_page _ _ _ = inl _ |- _ =>
                  apply shape_page_inl in H;
                  destruct H as (before & b & after & page & -> & Hp & Hi)
              end;
              by eexists _, before, b, after, page ].
Qed.

(** X20: a yielded page holds one item for each bundle of the [value] array of
    the response received last, in the same order: the secret shaped from
    the bundle for the listing of deleted secrets, the [properties] of
    that secret for the two other listings. *)
Theorem yielded_page_pointwise {S : Type}
    (fetch : S → Paging.Request → (Js.Exn + Paging.PageResponse) * S)
    (parse : Shaping.Parser) (vaultUrl : Js.JsVal)
    (st st' : Paging.PageGen) (s s' : S) page log :
  Paging.page_next fetch parse vaultUrl st s = (Paging.Yielded page, st', s', log) →
  ∃ x resp bundles,
    last log = Some x
    ∧ Paging.ex_result x = inr resp
    ∧ Paging.resp_value resp = Some bundles
    ∧ List.length page = List.length bundles
    ∧ Forall2 (λ bundle item,
         ∃ secret,
           (Shaping.getSecretFromSecretBundle parse bundle).2 = inr secret
           ∧ item = match Paging.gen_op st with
                    | Paging.GetDeletedSecrets => Paging.SecretItem secret
                    | _ => Paging.PropertiesItem (Shaping.properties secret)
                    end) bundles page.
Proof.
  intros Hnext.
  assert (∃ x resp bundles,
            last log = Some x ∧ Paging.ex_result x = inr resp
            ∧ Paging.resp_value resp = Some bundles
            ∧ Paging.shape_page parse (Paging.gen_op st) bundles = inr page)
    as (x & resp & bundles & Hl & Hr & Hv & Hp).
  { destruct st as [[] g op opts]; step_cases; simplify_eq; by eexists _, _, _. }
  exists x, resp, bundles. split_and!; try done.
  - apply shape_page_inr in Hp. symmetry. by eapply Forall2_length.
  - apply shape_page_inr in Hp. eapply Forall2_impl; [exact Hp|].
    intros b item. unfold Paging.shape_item.
    destruct (Shaping.getSecretFromSecretBundle parse b).2 as [e|secret]; [done|].
    intros Hi. exists secret. split; [done|].
    by destruct (Paging.gen_op st); simplify_eq.
Qed.

(** X21: the page size is a default only. The first request of a listing
    started without a continuation token goes to the vault URL and carries
    every setting of the caller's options unchanged; its [maxresults] is
    the page size of the settings only when the options have no
    [maxresults] of their own, which otherwise wins. *)
Theorem page_size_is_a_default {S : Type}
    (fetch : S → Paging.Request → (Js.Exn + Paging.PageResponse) * S)
    (parse : Shaping.Parser) (vaultUrl : Js.JsVal)
    (c : Paging.Collection) (options : gmap string Js.JsVal)
    (g : Paging.PageSettings) (s : S) :
  Js.nullish (Paging.continuationToken g) = true →
  ∃ o st' s' x rest,
    Paging.page_next fetch parse vaultUrl (Paging.byPage c options g) s = (o, st', s', x :: rest)
    ∧ Paging.ex_site x = Paging.FirstPage
    ∧ Paging.req_target (Paging.ex_request x) = vaultUrl
    ∧ Paging.req_options (Paging.ex_request x) !! "maxresults"
      = Some (default (Paging.maxPageSize g) (options !! "maxresults"))
    ∧ ∀ k : string, k ≠ "maxresults" →
        Paging.req_options (Paging.ex_request x) !! k = options !! k.
Proof.
  intros Hn.
  assert (∀ k : string,
            Js.assign {[ "maxresults" := Paging.maxPageSize g ]} options !! k
            = if decide (k = "maxresults")
              then Some (default (Paging.maxPageSize g) (options !! "maxresults"))
              else options !! k) as Hlook.
  { intros k. unfold Js.assign. rewrite lookup_union. case_decide as Hk.
    - subst k. rewrite lookup_singleton_eq. by destruct (options !! "maxresults").
    - rewrite lookup_singleton_ne by done. by destruct (options !! k). }
  assert (∃ o st' s' x rest,
            Paging.page_next fetch parse vaultUrl (Paging.byPage c options g) s
            = (o, st', s', x :: rest)
            ∧ Paging.ex_site x = Paging.FirstPage
            ∧ Paging.ex_request x =
                Paging.mkReq (Paging.gen_op (Paging.byPage c options g)) vaultUrl
                  (Js.assign {[ "maxresults" := Paging.maxPageSize g ]} options))
    as (o & st' & s' & x & rest & Hnext & Hsite & Hreq).
  { destruct c; unfold Paging.page_next; simpl; rewrite Hn;
      (destruct (fetch s _) as [[e|resp] s1] eqn:Hf; [by eexists _, _, _, _, _|]);
      unfold Paging.after_fetch; simpl;
      (destruct (Paging.resp_value resp) as [bundles|];
       [ destruct (Paging.shape_page parse _ bundles); by eexists _, _, _, _, _
       | destruct (Paging.loop_next fetch parse _ s1) as [[[o2 st2] s2] log2];
         by eexists _, _, _, _, _ ]). }
  exists o, st', s', x, rest. rewrite Hreq.
  change (Paging.req_options (Paging.mkReq ?a ?b ?o)) with o.
  split_and!; [done|done|done|by rewrite Hlook|].
  intros k Hk. rewrite Hlook. by case_decide.
Qed.

(** Resuming at work: after the first page of a listing whose pages both
    name a next page, a new generator given the settings object goes on as
    the suspended one. *)
Lemma settings_resume_iteration_witness :
  ∃ page st' s' log,
    Paging.page_next Paging.script_fetch Shaping.parseKeyvaultIdentifier Samples.vault
      (Paging.listPropertiesOfSecretsPage Paging.empty_settings ∅)
      Samples.script_valueless_second
    = (Paging.Yielded page, st', s', log)
    ∧ Js.nullish (Paging.continuationToken (Paging.settings st')) = false
    ∧ ∀ n s0,
        Paging.drain_pages Paging.script_fetch Shaping.parseKeyvaultIdentifier Samples.vault n
          (Paging.listPropertiesOfSecretsPage (Paging.settings st') ∅) s0
        = Paging.drain_pages Paging.script_fetch Shaping.parseKeyvaultIdentifier
            Samples.vault n st' s0.
Proof.
  destruct (Paging.page_next Paging.script_fetch Shaping.parseKeyvaultIdentifier Samples.vault
              (Paging.listPropertiesOfSecretsPage Paging.empty_settings ∅)
              Samples.script_valueless_second)
    as [[[o st'] s'] log] eqn:Hn.
  assert (∃ page, o = Paging.Yielded page) as [page ->].
  { vm_compute in Hn. injection Hn as <- _ _ _. by eexists. }
  pose proof (settings_resume_iteration Paging.script_fetch Shaping.parseKeyvaultIdentifier
                Samples.vault _ st' _ s' page log Hn) as H.
  vm_compute in Hn. injection Hn as <- <- <- <-.
  eexists _, _, _, _. split; [reflexivity|]. split; [reflexivity|].
  exact (H eq_refl).
Defined.


(** Errors at work: a page whose first bundle has no attributes makes the
    generator throw the error of the shaping and leaves it over. *)
Lemma errors_propagate_witness :
  ∃ e st' s' log,
    Paging.page_next Paging.script_fetch Shaping.parseKeyvaultIdentifier Samples.vault
      (Paging.listDeletedSecretsPage Paging.empty_settings ∅) [inr Samples.example_page]
    = (Paging.Threw e, st', s', log)
    ∧ Paging.is_over st' = true
    ∧ ∃ x, last log = Some x
        ∧ (Paging.ex_result x = inl e
           ∨ ∃ resp before b after page,
               Paging.ex_result x = inr resp
               ∧ Paging.resp_value resp = Some (before ++ b :: after)
               ∧ Paging.shape_page Shaping.parseKeyvaultIdentifier Paging.GetDeletedSecrets
                   before = inr page
               ∧ Paging.shape_item Shaping.parseKeyvaultIdentifier Paging.GetDeletedSecrets b
                 = inl e).
Proof.
  destruct (Paging.page_next Paging.script_fetch Shaping.parseKeyvaultIdentifier Samples.vault
              (Paging.listDeletedSecretsPage Paging.empty_settings ∅)
              [inr Samples.example_page])
    as [[[o st'] s'] log] eqn:Hn.
  pose proof (errors_propagate Paging.script_fetch Shaping.parseKeyvaultIdentifier
                Samples.vault _ st' _ s' o log Hn) as [_ H].
  vm_compute in Hn. injection Hn as <- <- <- <-.
  eexists _, _, _, _. split; [reflexivity|]. exact (H _ eq_refl).
Defined.

(** A yielded page at work: the first page of one secret comes out as a
    page of one item. *)
Lemma yielded_page_pointwise_witness :
  ∃ page st' s' log,
    Paging.page_next Paging.script_fetch Shaping.parseKeyvaultIdentifier Samples.vault
      (Paging.listPropertiesOfSecretsPage Paging.empty_settings ∅)
      Samples.script_valueless_second
    = (Paging.Yielded page, st', s', log)
    ∧ ∃ x resp bundles,
        last log = Some x
        ∧ Paging.ex_result x = inr resp
        ∧ Paging.resp_value resp = Some bundles
        ∧ List.length page = List.length bundles
        ∧ Forall2 (λ bundle item,
             ∃ secret,
               (Shaping.getSecretFromSecretBundle Shaping.parseKeyvaultIdentifier bundle).2
                 = inr secret
               ∧ item = Paging.PropertiesItem (Shaping.properties secret)) bundles page.
Proof.
  destruct (Paging.page_next Paging.script_fetch Shaping.parseKeyvaultIdentifier Samples.vault
              (Paging.listPropertiesOfSecretsPage Paging.empty_settings ∅)
              Samples.script_valueless_second)
    as [[[o st'] s'] log] eqn:Hn.
  assert (∃ page, o = Paging.Yielded page) as [page ->].
  { vm_compute in Hn. injection Hn as <- _ _ _. by eexists. }
  pose proof (yielded_page_pointwise Paging.script_fetch Shaping.parseKeyvaultIdentifier
                Samples.vault _ st' _ s' page log Hn) as H.
  vm_compute in Hn. injection Hn as <- <- <- <-.
  eexists _, _, _, _. split; [reflexivity|]. exact H.
Defined.

(** The default at work: options that name their own [maxresults] keep
    it, whatever the page size of the settings. *)
Lemma page_size_is_a_default_witness :
  ∃ o st' s' x rest,
    Paging.page_next Paging.script_fetch Shaping.parseKeyvaultIdentifier Samples.vault
      (Paging.byPage Paging.DeletedSecrets {[ "maxresults" := Js.VNum 5 ]}
         (Paging.mkSettings Js.VUndef (Js.VNum 25)))
      Samples.script_empty_last
    = (o, st', s', x :: rest)
    ∧ Paging.ex_site x = Paging.FirstPage
    ∧ Paging.req_target (Paging.ex_request x) = Samples.vault
    ∧ Paging.req_options (Paging.ex_request x) !! "maxresults" = Some (Js.VNum 5)
    ∧ ∀ k : string, k ≠ "maxresults" →
        Paging.req_options (Paging.ex_request x) !! k
        = ({[ "maxresults" := Js.VNum 5 ]} : gmap string Js.JsVal) !! k.
Proof.
  exact (page_size_is_a_default Paging.script_fetch Shaping.parseKeyvaultIdentifier
           Samples.vault Paging.DeletedSecrets {[ "maxresults" := Js.VNum 5 ]}
           (Paging.mkSettings Js.VUndef (Js.VNum 25)) Samples.script_empty_last eq_refl).
Defined.

(** ** The single-secret operations *)

Section OperationsMore.
Import Js Shaping Tracing Operations Keys.
Context {S : Type}.
Variable service : S → Call → (Exn + Obj) * S.
Variable parse : Parser.
Variable convert : JsVal → JsVal.
Variable recording : string → JsVal → bool.
Variable vaultUrl : JsVal.

(** [setParentSpan] throws only for a recording span and [null]. *)
Lemma setParentSpan_returns span options :
  nullish (or_empty options) = false ∨ span_recording span = false →
  ∃ o, setParentSpan span options = inr o.
Proof.
  unfold setParentSpan. intros [Hn|Hr].
  - destruct (span_recording span); [|by eexists].
    rewrite (get_prop_ok _ _ Hn). by eexists.
  - rewrite Hr. by eexists.
Qed.

Lemma or_empty_not_undefined options : or_empty options ≠ VUndef.
Proof. by destruct options. Qed.

(** What [setParentSpan] returns differs from the options in
    [spanOptions] only. *)
Lemma setParentSpan_keeps span options o k :
  setParentSpan span options = inr o → k ≠ "spanOptions" →
  spread o !! k = spread (or_empty options) !! k.
Proof.
  unfold setParentSpan. destruct (span_recording span).
  - destruct (get_prop _ _) as [e|so]; [done|]. intros [= <-] Hk. simpl.
    by rewrite lookup_insert_ne.
  - by intros [= <-].
Qed.

(** The events of the shared pattern: one span around at most one
    call. *)
Lemma traced_one_span name options op args s :
  one_span (traced service recording name options op args s).2.
Proof.
  unfold traced, invoke.
  destruct (setParentSpan _ options) as [e|o]; simpl.
  - exists (createSpan recording name options), []. split; [done|]. by left.
  - destruct (service s _) as [r s1]. simpl.
    exists (createSpan recording name options), [ServiceCall (mkCall op (args ++ [o])) r].
    split; [done|]. right. by eexists _, _.
Qed.

(** The call made by the shared pattern. *)
Lemma traced_call name options op args s r s1 events c r0 :
  traced service recording name options op args s = (r, s1, events) →
  ServiceCall c r0 ∈ events →
  r0 = r ∧ service s c = (r, s1)
  ∧ ∃ o, setParentSpan (createSpan recording name options) options = inr o
         ∧ c = mkCall op (args ++ [o]).
Proof.
  unfold traced, invoke.
  destruct (setParentSpan _ options) as [e|o]; simpl.
  - intros [= <- <- <-]. rewrite !elem_of_cons, elem_of_nil. by intros [|[|[]]].
  - cbv zeta. destruct (service s (mkCall op (args ++ [o]))) as [r' s'] eqn:Hs.
    simpl. intros [= <- <- <-].
    rewrite !elem_of_cons, elem_of_nil. intros [|[[= -> ->]|[|[]]]]; try done.
    split_and!; [done..|]. by exists o.
Qed.

(** With options that are an object the shared pattern makes its
    call. *)
Lemma traced_calls name (ro : Obj) op args s :
  ∃ o r s1,
    setParentSpan (createSpan recording name (VObj ro)) (VObj ro) = inr o
    ∧ service s (mkCall op (args ++ [o])) = (r, s1)
    ∧ traced service recording name (VObj ro) op args s
      = (r, s1, [StartSpan (createSpan recording name (VObj ro));
                 ServiceCall (mkCall op (args ++ [o])) r;
                 EndSpan (createSpan recording name (VObj ro))]).
Proof.
  destruct (setParentSpan_returns (createSpan recording name (VObj ro)) (VObj ro))
    as [o Ho]; [by left|].
  assert (∃ r s1, service s (mkCall op (args ++ [o])) = (r, s1)) as (r & s1 & Hs).
  { destruct (service s (mkCall op (args ++ [o]))). by eexists _, _. }
  exists o, r, s1. split_and!; [done..|].
  unfold traced, invoke. rewrite Ho. cbv zeta. by rewrite Hs.
Qed.

(** The unflattened options, key by key. *)
Lemma unflattened_wire name ro o :
  setParentSpan (createSpan recording name (VObj (unflattenedOptions ro)))
    (VObj (unflattenedOptions ro)) = inr o →
  ∃ sent, o = VObj sent ∧ wire_options ro sent.
Proof.
  unfold setParentSpan. simpl.
  assert (wire_options ro (unflattenedOptions ro)) as Hw.
  { unfold wire_options, unflattenedOptions, remainingOptions.
    split_and!.
    - rewrite lookup_insert_ne by done. rewrite lookup_delete_ne by done.
      rewrite lookup_delete_ne by done. apply lookup_delete_eq.
    - rewrite lookup_insert_ne by done. rewrite lookup_delete_ne by done.
      apply lookup_delete_eq.
    - rewrite lookup_insert_ne by done. apply lookup_delete_eq.
    - apply lookup_insert_eq.
    - intros k ? ? ? ? ?. rewrite lookup_insert_ne by done.
      by rewrite !lookup_delete_ne by done. }
  destruct (recording _ _).
  - intros [= <-]. eexists. split; [done|].
    destruct Hw as (H1 & H2 & H3 & H4 & H5). unfold wire_options.
    rewrite !lookup_insert_ne by done. split_and!; try done.
    intros k ? ? ? ? ?. rewrite lookup_insert_ne by done. by apply H5.
  - intros [= <-]. by eexists.
Qed.

End OperationsMore.

Section OperationsTheorems.
Import Js Shaping Tracing Operations Keys Paging.
Context {S : Type}.
Variable service : S → Call → (Exn + Obj) * S.
Variable parse : Parser.
Variable convert : JsVal → JsVal.
Variable recording : string → JsVal → bool.
Variable vaultUrl : JsVal.

(** X22: every traced operation starts one span before anything else and
    ends that span after everything else, around at most one call of the
    service, whether the call returns or throws and even when no call is
    made. [setSecret] and [updateSecretProperties] do so when the
    converted options are truthy; otherwise they make their one call
    without any span. *)
Theorem operations_end_their_span (options : JsVal) (s : S) :
  (∀ n, one_span (getSecret service parse convert recording vaultUrl n options s).2)
  ∧ (∀ n, one_span (getDeletedSecret service parse convert recording vaultUrl n options s).2)
  ∧ (∀ n, one_span (purgeDeletedSecret service convert recording vaultUrl n options s).2)
  ∧ (∀ n, one_span (backupSecret service convert recording vaultUrl n options s).2)
  ∧ (∀ b, one_span (restoreSecretBackup service parse convert recording vaultUrl b options s).2)
  ∧ (∀ n, one_span (deleteSecret service parse recording vaultUrl n options s).2)
  ∧ (∀ n, one_span (recoverDeletedSecret service parse convert recording vaultUrl n options s).2)
  ∧ (∀ n v,
       if truthy (convert (or_empty options))
       then one_span (setSecret service parse convert recording vaultUrl n v options s).2
       else ∃ c r, (setSecret service parse convert recording vaultUrl n v options s).2
                   = [ServiceCall c r])
  ∧ (∀ n v,
       if truthy (convert (or_empty options))
       then one_span
              (updateSecretProperties service parse convert recording vaultUrl n v options s).2
       else ∃ c r,
              (updateSecretProperties service parse convert recording vaultUrl n v options s).2
              = [ServiceCall c r]).
Proof.
  assert (∀ {A : Type} (f : (Exn + Obj) → A) name o op args,
            (let '(r, s1, events) := traced service recording name o op args s in
             (f r, s1, events)).2
            = (traced service recording name o op args s).2) as Hev.
  { intros A f name o op args. by destruct (traced _ _ _ _ _ _ _) as [[r s1] events]. }
  split_and!; intros.
  1-7: unfold getSecret, getDeletedSecret, purgeDeletedSecret, backupSecret,
         restoreSecretBackup, deleteSecret, recoverDeletedSecret;
       cbv zeta; rewrite Hev; apply traced_one_span.
  - unfold setSecret. cbv zeta. destruct (truthy (convert (or_empty options))).
    + rewrite Hev. apply traced_one_span.
    + unfold invoke. cbv zeta. destruct (service s _) as [r s1]. by eexists _, _.
  - unfold updateSecretProperties. cbv zeta. destruct (truthy (convert (or_empty options))).
    + rewrite Hev. apply traced_one_span.
    + unfold invoke. cbv zeta. destruct (service s _) as [r s1]. by eexists _, _.
Qed.

(** X23: [setSecret] and [updateSecretProperties] unflatten the options:
    whatever object the conversion returns, the service is called once
    and receives options without [enabled], [notBefore] and [expiresOn]
    at the top level; the three values sit under [secretAttributes],
    [expiresOn] under the name [expires], in place of any
    [secretAttributes] of the caller; every other setting but
    [spanOptions] is passed on as it is. *)
Theorem secret_options_unflattened (options : JsVal) (ro : Obj) (s : S) :
  convert (or_empty options) = VObj ro →
  (∀ n v, ∃ sent r,
      wire_options (VObj ro) sent
      ∧ ServiceCall (mkCall OpSetSecret [vaultUrl; VStr n; VStr v; VObj sent]) r
          ∈ (setSecret service parse convert recording vaultUrl n v options s).2)
  ∧ (∀ n v, ∃ sent r,
      wire_options (VObj ro) sent
      ∧ ServiceCall (mkCall OpUpdateSecret [vaultUrl; VStr n; VStr v; VObj sent]) r
          ∈ (updateSecretProperties service parse convert recording vaultUrl n v options s).2).
Proof.
  intros Hro. split; intros n v.
  - unfold setSecret. rewrite Hro. simpl.
    destruct (traced_calls service recording "setSecret" (unflattenedOptions (VObj ro))
                OpSetSecret [vaultUrl; VStr n; VStr v] s) as (o & r & s1 & Ho & Hs & ->).
    destruct (unflattened_wire recording _ _ _ Ho) as (sent & -> & Hw).
    exists sent, r. split; [done|]. simpl. rewrite !elem_of_cons. auto.
  - unfold updateSecretProperties. rewrite Hro. simpl.
    destruct (traced_calls service recording "updateSecretProperties"
                (unflattenedOptions (VObj ro))
                OpUpdateSecret [vaultUrl; VStr n; VStr v] s) as (o & r & s1 & Ho & Hs & ->).
    destruct (unflattened_wire recording _ _ _ Ho) as (sent & -> & Hw).
    exists sent, r. split; [done|]. simpl. rewrite !elem_of_cons. auto.
Qed.

(** X24: what is set comes back. When the service answers [setSecret] with a
    bundle whose attributes are the [secretAttributes] it was sent, and
    the bundle's identifier parses, the operation returns a secret whose
    properties hold the caller's [expiresOn], [notBefore] and [enabled]
    under these very names: the renaming of [expiresOn] to the wire name
    [expires] is undone by the shaping. ([expiresOn] must not already be
    a field of the bundle or of the parsed identifier.) *)
Theorem set_secret_round_trip n v (options : JsVal) (ro : Obj) (s s1 : S)
    r events c response sentv parsedId :
  convert (or_empty options) = VObj ro →
  setSecret service parse convert recording vaultUrl n v options s = (r, s1, events) →
  ServiceCall c (inr response) ∈ events →
  last (call_args c) = Some sentv →
  get response "attributes" = read sentv "secretAttributes" →
  parse "secrets" (get response "id") = inr parsedId →
  has_key response "expiresOn" = false →
  has_key parsedId "expiresOn" = false →
  ∃ secret,
    r = inr secret
    ∧ get (properties secret) "expiresOn" = get ro "expiresOn"
    ∧ get (properties secret) "notBefore" = get ro "notBefore"
    ∧ get (properties secret) "enabled" = get ro "enabled".
Proof.
  intros Hro Hset Hc Hlast Hattr Hparse Hresp Hpid.
  unfold setSecret in Hset. rewrite Hro in Hset. simpl in Hset.
  destruct (traced_calls service recording "setSecret" (unflattenedOptions (VObj ro))
              OpSetSecret [vaultUrl; VStr n; VStr v] s) as (o & r' & s1' & Ho & Hs & Heq).
  rewrite Heq in Hset. injection Hset as <- <- <-.
  rewrite !elem_of_cons, elem_of_nil in Hc.
  destruct Hc as [|[[= -> <-]|[|[]]]]; try done.
  simpl in Hlast. injection Hlast as <-.
  destruct (unflattened_wire recording _ _ _ Ho) as (sent & -> & Hw).
  destruct Hw as (_ & _ & _ & Hsa & _).
  simpl in Hattr. unfold get in Hattr at 2. rewrite Hsa in Hattr. simpl in Hattr.
  apply has_key_false in Hresp, Hpid.
  unfold shaped, getSecretFromSecretBundle. rewrite Hparse, Hattr. simpl.
  eexists. split; [reflexivity|]. simpl.
  assert (delete "attributes" response !! "expiresOn" = None) as Hsb.
  { by rewrite lookup_delete_ne. }
  split_and!.
  - rewrite get_drop_renamed, get_rename_deleted by done.
    rewrite get_literal_own by done.
    rewrite get_insert_ne, get_insert_ne by done. apply get_insert_eq.
  - rewrite get_drop_renamed, get_rename_deleted by done.
    by rewrite get_literal_spread by done.
  - rewrite get_drop_renamed, get_rename_deleted by done.
    by rewrite get_literal_spread by done.
Qed.

(** X25: the options of a listing reach the service. Every setting of the
    converted options other than [spanOptions] and [maxresults] is part
    of each request that an iteration by page makes, with its value
    unchanged; and the span of the listing has been ended before the
    iterator is handed out, hence before the first request. *)
Theorem list_options_reach_every_request {T : Type}
    (fetch : T → Request → (Exn + PageResponse) * T)
    name (options : JsVal) u events c g n (t : T) x (k : string) :
  updatedOptions convert recording name options = (inr u, events) →
  x ∈ (drain_pages fetch parse vaultUrl n (byPage c u g) t).2 →
  k ≠ "spanOptions" → k ≠ "maxresults" →
  req_options (ex_request x) !! k = spread (convert (or_empty options)) !! k
  ∧ events = [StartSpan (createSpan recording name (convert (or_empty options)));
              EndSpan (createSpan recording name (convert (or_empty options)))].
Proof.
  intros Hu Hx Hk Hm. unfold updatedOptions in Hu.
  destruct (setParentSpan _ _) as [e|o] eqn:Ho; [done|]. injection Hu as <- <-.
  split; [|done]. revert Hx.
  set (u := assign (spread (convert (or_empty options))) (spread o)). intros Hx.
  pose proof (setParentSpan_keeps _ _ _ k Ho Hk) as Hkeep.
  assert (spread (or_empty (convert (or_empty options)))
          = spread (convert (or_empty options))) as Hsp.
  { by destruct (convert (or_empty options)). }
  rewrite Hsp in Hkeep.
  assert (u !! k = spread (convert (or_empty options)) !! k) as Hlook.
  { subst u. unfold assign. rewrite lookup_union, Hkeep.
    by destruct (spread (convert (or_empty options)) !! k). }
  assert (pc (byPage c u g) = AtStart) as Hpc by by destruct c.
  assert (gen_options (byPage c u g) = u) as Hopts by by destruct c.
  destruct (drain_request_options fetch parse vaultUrl n (byPage c u g) t x Hpc Hx)
    as [Hreq|Hreq]; rewrite Hreq, Hopts; [done|].
  unfold assign. rewrite lookup_union, lookup_singleton_ne by done.
  rewrite <- Hlook. by destruct (u !! k).
Qed.

End OperationsTheorems.

(** Unflattening at work, with a recording tracer. *)
Lemma secret_options_unflattened_witness :
  (∀ n v, ∃ sent r,
      Operations.wire_options (Js.VObj OperationSamples.set_options) sent
      ∧ Operations.ServiceCall
          (Operations.mkCall Operations.OpSetSecret
             [Samples.vault; Js.VStr n; Js.VStr v; Js.VObj sent]) r
        ∈ (Operations.setSecret OperationSamples.storing_service Shaping.parseKeyvaultIdentifier
             OperationSamples.plain_conversion OperationSamples.recording_tracer Samples.vault
             n v (Js.VObj OperationSamples.set_options) tt).2)
  ∧ (∀ n v, ∃ sent r,
      Operations.wire_options (Js.VObj OperationSamples.set_options) sent
      ∧ Operations.ServiceCall
          (Operations.mkCall Operations.OpUpdateSecret
             [Samples.vault; Js.VStr n; Js.VStr v; Js.VObj sent]) r
        ∈ (Operations.updateSecretProperties OperationSamples.storing_service
             Shaping.parseKeyvaultIdentifier OperationSamples.plain_conversion
             OperationSamples.recording_tracer Samples.vault
             n v (Js.VObj OperationSamples.set_options) tt).2).
Proof.
  exact (secret_options_unflattened OperationSamples.storing_service
           Shaping.parseKeyvaultIdentifier OperationSamples.plain_conversion
           OperationSamples.recording_tracer Samples.vault
           (Js.VObj OperationSamples.set_options) OperationSamples.set_options tt eq_refl).
Defined.

(** The round trip at work: the expiry date given to [setSecret] comes
    back as [expiresOn]. *)
Lemma set_secret_round_trip_witness :
  ∃ secret s1 events,
    Operations.setSecret OperationSamples.storing_service Shaping.parseKeyvaultIdentifier
      OperationSamples.plain_conversion OperationSamples.recording_tracer Samples.vault
      "db-password" "hunter2" (Js.VObj OperationSamples.set_options) tt
    = (inr secret, s1, events)
    ∧ Js.get (Shaping.properties secret) "expiresOn" = Js.VDate 1767225600000
    ∧ Js.get (Shaping.properties secret) "notBefore" = Js.VUndef
    ∧ Js.get (Shaping.properties secret) "enabled" = Js.VBool true.
Proof.
  destruct (Operations.setSecret OperationSamples.storing_service Shaping.parseKeyvaultIdentifier
              OperationSamples.plain_conversion OperationSamples.recording_tracer Samples.vault
              "db-password" "hunter2" (Js.VObj OperationSamples.set_options) tt)
    as [[r s1] events] eqn:Hset.
  epose proof (set_secret_round_trip OperationSamples.storing_service
                 Shaping.parseKeyvaultIdentifier OperationSamples.plain_conversion
                 OperationSamples.recording_tracer Samples.vault
                 "db-password" "hunter2" (Js.VObj OperationSamples.set_options)
                 OperationSamples.set_options tt s1 r events _ _ _ _ eq_refl Hset) as H.
  vm_compute in Hset. injection Hset as <- <- <-.
  destruct H as (secret & Hr & H).
  - apply list_elem_of_further, list_elem_of_here.
  - reflexivity.
  - reflexivity.
  - vm_compute. reflexivity.
  - reflexivity.
  - reflexivity.
  - injection Hr as <-. eexists _, _, _. split; [reflexivity|]. exact H.
Defined.

(** The options of a listing at work: the timeout of the caller is part
    of the first request. *)
Lemma list_options_reach_every_request_witness :
  ∃ u events x,
    Operations.updatedOptions OperationSamples.plain_conversion OperationSamples.recording_tracer
      "listPropertiesOfSecrets" (Js.VObj OperationSamples.list_options) = (inr u, events)
    ∧ x ∈ (Paging.drain_pages Paging.script_fetch Shaping.parseKeyvaultIdentifier Samples.vault 3
             (Paging.byPage Paging.PropertiesOfSecrets u Paging.empty_settings)
             Samples.script_valueless_second).2
    ∧ Paging.req_options (Paging.ex_request x) !! "timeout" = Some (Js.VNum 30000)
    ∧ List.length events = 2.
Proof.
  destruct (Operations.updatedOptions OperationSamples.plain_conversion
              OperationSamples.recording_tracer "listPropertiesOfSecrets"
              (Js.VObj OperationSamples.list_options)) as [r events] eqn:Hu.
  assert (∃ u, r = inr u) as [u ->].
  { vm_compute in Hu. injection Hu as <- _. by eexists. }
  assert (∃ x, head (Paging.drain_pages Paging.script_fetch Shaping.parseKeyvaultIdentifier
                       Samples.vault 3
                       (Paging.byPage Paging.PropertiesOfSecrets u Paging.empty_settings)
                       Samples.script_valueless_second).2 = Some x) as [x Hx].
  { vm_compute in Hu. injection Hu as <- _. vm_compute. by eexists. }
  apply head_Some_elem_of in Hx.
  pose proof (list_options_reach_every_request Shaping.parseKeyvaultIdentifier
                OperationSamples.plain_conversion OperationSamples.recording_tracer Samples.vault
                Paging.script_fetch "listPropertiesOfSecrets"
                (Js.VObj OperationSamples.list_options) u events Paging.PropertiesOfSecrets
                Paging.empty_settings 3 Samples.script_valueless_second x "timeout"
                Hu Hx ltac:(done) ltac:(done)) as [H1 H2].
  exists u, events, x. split; [done|]. split; [done|]. split; [exact H1|].
  by rewrite H2.
Defined.

(** ** The [SecretClient] constructor and its collaborators *)

Section SecretClientMore.
Import Js Clients.
Variable SDK_VERSION : string.
Context {AuthPolicy Pipeline Client : Type}.
Variable isTokenCredential : JsVal → Exn + bool.
Variable challengeBasedAuthenticationPolicy : JsVal → Exn + AuthPolicy.
Variable signingPolicy : JsVal → Exn + AuthPolicy.
Variable createPipelineFromOptions : gmap string JsVal → AuthPolicy → Exn + Pipeline.
Variable KeyVaultClient_new : JsVal → string → Pipeline → Exn + Client.

(** X26: what the constructor hands to its collaborators. When it returns,
    the client stores the vault URL and the credential it was given; the
    authentication policy is the challenge-based one for a token
    credential and the signing one otherwise; the pipeline was created
    from the options as the constructor leaves them, except that
    [loggingOptions] is the constructor's own literal, whatever the
    caller put there; and the generated client was created with that
    credential, service version 7.0 and that pipeline. When it throws,
    the error is the one a collaborator threw. *)
Theorem secret_client_collaborators
    (vaultUrl credential : JsVal) (pipelineOptions : option (gmap string JsVal)) :
  let after := fst (SecretClient_new SDK_VERSION isTokenCredential
                      challengeBasedAuthenticationPolicy signingPolicy
                      createPipelineFromOptions KeyVaultClient_new
                      vaultUrl credential pipelineOptions) in
  let authentication (is_token : bool) :=
    if is_token then challengeBasedAuthenticationPolicy credential
    else signingPolicy credential in
  match snd (SecretClient_new SDK_VERSION isTokenCredential
               challengeBasedAuthenticationPolicy signingPolicy
               createPipelineFromOptions KeyVaultClient_new
               vaultUrl credential pipelineOptions) with
  | inr c =>
      Clients.vaultUrl c = vaultUrl ∧ Clients.credential c = credential
      ∧ ∃ is_token authPolicy opts,
          isTokenCredential credential = inr is_token
          ∧ authentication is_token = inr authPolicy
          ∧ createPipelineFromOptions opts authPolicy = inr (pipeline c)
          ∧ opts !! "loggingOptions" = Some loggingOptions
          ∧ (∀ k : string, k ≠ "loggingOptions" → opts !! k = after !! k)
          ∧ KeyVaultClient_new credential "7.0" (pipeline c) = inr (client c)
  | inl e =>
      isTokenCredential credential = inl e
      ∨ (∃ is_token, isTokenCredential credential = inr is_token
                     ∧ authentication is_token = inl e)
      ∨ (∃ opts authPolicy, createPipelineFromOptions opts authPolicy = inl e)
      ∨ (∃ p, KeyVaultClient_new credential "7.0" p = inl e)
  end.
Proof.
  cbv zeta. unfold SecretClient_new. simpl.
  destruct (isTokenCredential credential) as [e|is_token] eqn:Ht; [by left|].
  destruct (if is_token then challengeBasedAuthenticationPolicy credential
            else signingPolicy credential) as [e|authPolicy] eqn:Ha.
  { right. left. by exists is_token. }
  destruct (createPipelineFromOptions _ authPolicy) as [e|p] eqn:Hp.
  { right. right. left. by eexists _, _. }
  destruct (KeyVaultClient_new credential SERVICE_API_VERSION p) as [e|cl] eqn:Hc.
  { right. right. right. by exists p. }
  simpl. split_and!; [done..|].
  eexists is_token, authPolicy, _. split_and!; [done|done|exact Hp| | |exact Hc].
  - unfold internalPipelineOptions, assign. rewrite lookup_union.
    rewrite lookup_singleton_eq. by destruct (_ !! _).
  - intros k Hk. unfold internalPipelineOptions, assign. rewrite lookup_union.
    rewrite lookup_singleton_ne by done. by destruct (_ !! k).
Qed.

End SecretClientMore.
